(** * The chat message renderer of static/script.js

    [formatMessageText] turns the text of a chat message into the markup
    that [addMessage] assigns to [innerHTML].  This file embeds the method
    and its local closures ([escapeHtml], [applyInlineFormatting],
    [flushList], [flushCode]) and proves the properties of the renderer.

    A JavaScript string is a sequence of 16-bit code units.  The renderer
    never looks at anything but the code unit of a character, so the
    embedding is written once over an abstract character type that carries
    a code unit ([code]) and can be built from a code unit ([gen], used for
    every character of a string literal of the source).  Instantiated at
    [N] this is the program itself; instantiated at code units tagged with
    their origin it tracks which characters of the result come from the
    message and which from the renderer. *)

From Stdlib Require Import Ascii String NArith Bool Arith Lia List DecimalString.
Import ListNotations.

Set Implicit Arguments.

(** ** Characters *)

Class CodeUnit (C : Type) : Type := {
  code : C -> N;
  gen : N -> C;
  code_gen : forall n, code (gen n) = n
}.

#[export] Instance plainUnit : CodeUnit N :=
  {| code := fun n => n; gen := fun n => n; code_gen := fun n => eq_refl |}.

(** Where a character of a result comes from: the message, or a string
    literal of the renderer. *)
Inductive origin : Type := FromInput | Generated.

Definition tagged : Type := (N * origin)%type.

#[export] Instance taggedUnit : CodeUnit tagged :=
  {| code := fst; gen := fun n => (n, Generated); code_gen := fun n => eq_refl |}.

(** The message with every character tagged as input. *)
Definition taint (text : list N) : list tagged :=
  map (fun n => (n, FromInput)) text.

(** ECMAScript LineTerminator: LF, CR, LS, PS. *)
Definition isLineTerminator (n : N) : bool :=
  ((n =? 10) || (n =? 13) || (n =? 8232) || (n =? 8233))%N.

(** ECMAScript WhiteSpace: TAB, VT, FF, SP, NBSP, ZWNBSP and category Zs. *)
Definition isWhiteSpace (n : N) : bool :=
  ((n =? 9) || (n =? 11) || (n =? 12) || (n =? 32) || (n =? 160)
   || (n =? 5760) || ((8192 <=? n) && (n <=? 8202)) || (n =? 8239)
   || (n =? 8287) || (n =? 12288) || (n =? 65279))%N.

(** What the regular expression class \s matches and what [trim] and
    [trimEnd] strip: WhiteSpace and LineTerminator. *)
Definition isSpace (n : N) : bool := isWhiteSpace n || isLineTerminator n.

(** The class \d. *)
Definition isDigit (n : N) : bool := ((48 <=? n) && (n <=? 57))%N.

(** The class of [bulletMatch]: the file holds the bytes
    2D 2A C3A2 E282AC C2A2 between the brackets, which a UTF-8 reader
    decodes to U+002D, U+002A, U+00E2, U+20AC and U+00A2. *)
Definition isBullet (n : N) : bool :=
  ((n =? 45) || (n =? 42) || (n =? 226) || (n =? 8364) || (n =? 162))%N.

(** The code units that the renderer names. *)
Definition AMP : N := 38%N.
Definition LT : N := 60%N.
Definition GT : N := 62%N.
Definition STAR : N := 42%N.
Definition BACKTICK : N := 96%N.
Definition HASH : N := 35%N.
Definition DOT : N := 46%N.
Definition NEWLINE : N := 10%N.

(** The three backticks of [line.startsWith]. *)
Definition fence : list N := [BACKTICK; BACKTICK; BACKTICK].

(** The three characters that [escapeHtml] replaces. *)
Definition isSpecial (n : N) : bool := ((n =? AMP) || (n =? LT) || (n =? GT))%N.

(** The code units of a string literal (the literals of the source are
    ASCII). *)
Definition codes (s : string) : list N := map N_of_ascii (list_ascii_of_string s).

(** The double quote and the line feed, as strings. *)
Definition dq : string := String (ascii_of_nat 34) EmptyString.
Definition nl : string := String (ascii_of_nat 10) EmptyString.

Section Renderer.

Context {C : Type} `{CodeUnit C}.

(** The characters of a string literal of the source. *)
Definition lit (s : string) : list C := map gen (codes s).

(** ** String primitives *)

(** [String.prototype.startsWith], also the match of a literal at the
    current position of a regular expression. *)
Fixpoint startsWith (d : list N) (s : list C) : bool :=
  match d with
  | [] => true
  | x :: d' =>
      match s with
      | [] => false
      | c :: s' => (code c =? x)%N && startsWith d' s'
      end
  end.

(** The longest prefix whose code units satisfy [p], and the rest: a greedy
    [class*] with nothing to backtrack into. *)
Fixpoint span (p : N -> bool) (s : list C) : list C * list C :=
  match s with
  | [] => ([], [])
  | c :: r =>
      if p (code c)
      then let (a, b) := span p r in (c :: a, b)
      else ([], s)
  end.

Fixpoint dropWhile (p : N -> bool) (s : list C) : list C :=
  match s with
  | [] => []
  | c :: r => if p (code c) then dropWhile p r else s
  end.

(** [String.prototype.trimEnd]. *)
Fixpoint trimEnd (s : list C) : list C :=
  match s with
  | [] => []
  | c :: r =>
      match trimEnd r with
      | [] => if isSpace (code c) then [] else [c]
      | t => c :: t
      end
  end.

(** [String.prototype.trim]. *)
Definition trim (s : list C) : list C := dropWhile isSpace (trimEnd s).

(** [text.split('\n')]: never empty, the separators are dropped. *)
Fixpoint split (s : list C) : list (list C) :=
  match s with
  | [] => [[]]
  | c :: r =>
      if (code c =? NEWLINE)%N then [] :: split r
      else match split r with
           | l :: ls => (c :: l) :: ls
           | [] => [[c]]
           end
  end.

(** [Array.prototype.join]. *)
Fixpoint join (sep : list C) (xs : list (list C)) : list C :=
  match xs with
  | [] => []
  | [x] => x
  | x :: rest => x ++ sep ++ join sep rest
  end.

(** ** Global replacement

    A matcher answers, for the text at the current position, the first
    capture group and the length of the whole match.  [replaceFrom] is
    [String.prototype.replace] with a global regular expression: the text
    is scanned left to right, a match is replaced and the scan resumes
    behind it ([skip] counts the code units of the match still to pass),
    a position without a match keeps its code unit.  Every pattern of the
    renderer consumes at least one code unit. *)
Definition matcher : Type := list C -> option (list C * nat).

Fixpoint replaceFrom (m : matcher) (repl : list C -> list C)
    (skip : nat) (s : list C) : list C :=
  match s with
  | [] => []
  | c :: r =>
      match skip with
      | S k => replaceFrom m repl k r
      | O =>
          match m s with
          | Some (g, len) => repl g ++ replaceFrom m repl (pred len) r
          | None => c :: replaceFrom m repl 0 r
          end
      end
  end.

Definition replaceAll (m : matcher) (repl : list C -> list C) (s : list C) : list C :=
  replaceFrom m repl 0 s.

(** A one-character pattern: /&/, /</, />/. *)
Definition matchChar (x : N) : matcher := fun s =>
  match s with
  | c :: _ => if (code c =? x)%N then Some ([], 1) else None
  | [] => None
  end.

(** The lazy group (.+?) followed by the literal [d]: the dot takes one
    code unit that is no line terminator, then [d] is tried, and on
    failure the dot takes one more. *)
Fixpoint lazyUntil (d : list N) (s : list C) : option (list C) :=
  match s with
  | [] => None
  | c :: r =>
      if isLineTerminator (code c) then None
      else if startsWith d r then Some [c]
      else option_map (cons c) (lazyUntil d r)
  end.

(** [d (.+?) d] for a delimiter [d]: /\*\*(.+?)\*\*/ and /\*(.+?)\*/. *)
Definition matchDelimited (d : list N) : matcher := fun s =>
  if startsWith d s then
    match lazyUntil d (skipn (length d) s) with
    | Some g => Some (g, length d + length g + length d)
    | None => None
    end
  else None.

(** /`([^`]+)`/: the class is greedy and excludes the closing backtick, so
    giving code units back never helps. *)
Definition matchCode : matcher := fun s =>
  if startsWith [BACKTICK] s then
    let (g, rest) := span (fun n => negb (n =? BACKTICK)%N) (skipn 1 s) in
    match g with
    | [] => None
    | _ :: _ => if startsWith [BACKTICK] rest then Some (g, 1 + length g + 1) else None
    end
  else None.

(** /(https?:\/\/[^\s<]+)/ behind the scheme of [k] code units: the
    colon and the slashes, then a greedy run of at least one code unit
    that is no space and no less-than sign.  The group is the whole
    match. *)
Definition afterScheme (s : list C) (k : nat) : option (list C * nat) :=
  if startsWith (codes "://") (skipn k s) then
    match fst (span (fun n => negb (isSpace n || (n =? LT)%N)) (skipn (k + 3) s)) with
    | [] => None
    | g => Some (firstn (k + 3 + length g) s, k + 3 + length g)
    end
  else None.

(** The optional s of the scheme is tried first and given back if the rest
    fails. *)
Definition matchUrl : matcher := fun s =>
  if startsWith (codes "http") s then
    match (if startsWith (codes "s") (skipn 4 s) then afterScheme s 5 else None) with
    | Some r => Some r
    | None => afterScheme s 4
    end
  else None.

(** ** escapeHtml *)
Definition escapeHtml (str : list C) : list C :=
  replaceAll (matchChar GT) (fun _ => lit "&gt;")
    (replaceAll (matchChar LT) (fun _ => lit "&lt;")
      (replaceAll (matchChar AMP) (fun _ => lit "&amp;") str)).

(** ** applyInlineFormatting *)
Definition boldPass : list C -> list C :=
  replaceAll (matchDelimited [STAR; STAR]) (fun g => lit "<strong>" ++ g ++ lit "</strong>").

Definition italicPass : list C -> list C :=
  replaceAll (matchDelimited [STAR]) (fun g => lit "<em>" ++ g ++ lit "</em>").

Definition codePass : list C -> list C :=
  replaceAll matchCode (fun g => lit "<code>" ++ g ++ lit "</code>").

(** The opening tag of the replacement of the autolink pattern, with the
    group as the value of href. *)
Definition anchorOpen (g : list C) : list C :=
  lit "<a href=" ++ lit dq ++ g ++ lit dq ++ lit " target=" ++ lit dq ++ lit "_blank" ++ lit dq ++ lit ">".

Definition linkPass : list C -> list C :=
  replaceAll matchUrl (fun g => anchorOpen g ++ g ++ lit "</a>").

Definition applyInlineFormatting (str : list C) : list C :=
  let processed := escapeHtml str in
  let processed := boldPass processed in
  let processed := italicPass processed in
  let processed := codePass processed in
  let processed := linkPass processed in
  processed.

(** ** The line patterns *)

(** The tail shared by the three line patterns, \s+ and a capturing group
    of a greedy dot: a greedy run of at least one space, then everything
    up to the first line terminator. *)
Definition spacesThenRest (s : list C) : option (list C) :=
  let (ws, r) := span isSpace s in
  match ws with
  | [] => None
  | _ :: _ => Some (fst (span (fun n => negb (isLineTerminator n)) r))
  end.

Fixpoint firstSome {A B : Type} (f : A -> option B) (xs : list A) : option B :=
  match xs with
  | [] => None
  | x :: r => match f x with Some y => Some y | None => firstSome f r end
  end.

(** [headingMatch], ^(#{1,4}) and the shared tail: the bounded repetition
    is greedy, so four hashes are tried first and one last.  The result is
    the length of group 1 and group 2. *)
Definition headingMatch (line : list C) : option (nat * list C) :=
  firstSome (fun k =>
      if startsWith (repeat HASH k) line
      then option_map (fun g => (k, g)) (spacesThenRest (skipn k line))
      else None)
    [4; 3; 2; 1].

(** [bulletMatch]: one code unit of the bullet class and the shared tail. *)
Definition bulletMatch (line : list C) : option (list C) :=
  match line with
  | c :: r => if isBullet (code c) then spacesThenRest r else None
  | [] => None
  end.

(** [orderedMatch], ^\d+\. and the shared tail: the digits are greedy; a
    shorter run of digits is followed by a digit, never by the dot. *)
Definition orderedMatch (line : list C) : option (list C) :=
  let (ds, r) := span isDigit line in
  match ds, r with
  | _ :: _, c :: r' => if (code c =? DOT)%N then spacesThenRest r' else None
  | _, _ => None
  end.

(** ** The line scan *)

Inductive listKind : Type := ul | ol.

Definition listKind_eqb (a b : listKind) : bool :=
  match a, b with
  | ul, ul | ol, ol => true
  | _, _ => false
  end.

Record state : Type := mkState {
  html : list C;
  listBuffer : list (list C);
  listType : option listKind;
  inCodeBlock : bool;
  codeBuffer : list (list C)
}.

Definition initial : state :=
  {| html := []; listBuffer := []; listType := None;
     inCodeBlock := false; codeBuffer := [] |}.

(** [listType] inside a template literal. *)
Definition listTypeName (t : option listKind) : list C :=
  match t with
  | Some ul => lit "ul"
  | Some ol => lit "ol"
  | None => lit "null"
  end.

Definition flushList (st : state) : state :=
  match listBuffer st with
  | [] => st
  | _ :: _ =>
      {| html := html st ++ lit "<" ++ listTypeName (listType st) ++ lit ">"
                   ++ concat (listBuffer st)
                   ++ lit "</" ++ listTypeName (listType st) ++ lit ">";
         listBuffer := [];
         listType := None;
         inCodeBlock := inCodeBlock st;
         codeBuffer := codeBuffer st |}
  end.

Definition flushCode (st : state) : state :=
  match codeBuffer st with
  | [] => st
  | _ :: _ =>
      {| html := html st ++ lit "<pre><code>"
                   ++ escapeHtml (join (lit nl) (codeBuffer st))
                   ++ lit "</code></pre>";
         listBuffer := listBuffer st;
         listType := listType st;
         inCodeBlock := inCodeBlock st;
         codeBuffer := [] |}
  end.

Definition setInCodeBlock (b : bool) (st : state) : state :=
  {| html := html st; listBuffer := listBuffer st; listType := listType st;
     inCodeBlock := b; codeBuffer := codeBuffer st |}.

Definition emit (x : list C) (st : state) : state :=
  {| html := html st ++ x; listBuffer := listBuffer st; listType := listType st;
     inCodeBlock := inCodeBlock st; codeBuffer := codeBuffer st |}.

Definition pushCode (rawLine : list C) (st : state) : state :=
  {| html := html st; listBuffer := listBuffer st; listType := listType st;
     inCodeBlock := inCodeBlock st; codeBuffer := codeBuffer st ++ [rawLine] |}.

(** The two list branches: flush and switch unless the open list already
    has the kind [k], then push one item. *)
Definition pushItem (k : listKind) (item : list C) (st : state) : state :=
  let st1 :=
    match listType st with
    | Some k' =>
        if listKind_eqb k' k then st
        else let f := flushList st in
             {| html := html f; listBuffer := listBuffer f; listType := Some k;
                inCodeBlock := inCodeBlock f; codeBuffer := codeBuffer f |}
    | None =>
        let f := flushList st in
        {| html := html f; listBuffer := listBuffer f; listType := Some k;
           inCodeBlock := inCodeBlock f; codeBuffer := codeBuffer f |}
    end in
  {| html := html st1;
     listBuffer := listBuffer st1 ++ [lit "<li>" ++ applyInlineFormatting item ++ lit "</li>"];
     listType := listType st1;
     inCodeBlock := inCodeBlock st1;
     codeBuffer := codeBuffer st1 |}.

(** [Math.min(headingMatch[1].length + 2, 5)] inside a template literal:
    the level is 3, 4 or 5, one decimal digit. *)
Definition headingLevel (hashCount : nat) : nat := Nat.min (hashCount + 2) 5.

Definition digit (n : nat) : list C := [gen (48 + N.of_nat n)%N].

(** The body of the [for] loop. *)
Definition step (st : state) (rawLine : list C) : state :=
  let line := trimEnd rawLine in
  if startsWith fence line then
    if inCodeBlock st
    then setInCodeBlock false (flushCode st)
    else setInCodeBlock true (flushList st)
  else if inCodeBlock st then pushCode rawLine st
  else
    match trim line with
    | [] => emit (lit "<br>") (flushList st)
    | _ :: _ =>
        match headingMatch line with
        | Some (n, g) =>
            let level := headingLevel n in
            emit (lit "<h" ++ digit level ++ lit ">" ++ applyInlineFormatting g
                    ++ lit "</h" ++ digit level ++ lit ">")
                 (flushList st)
        | None =>
            match bulletMatch line with
            | Some g => pushItem ul g st
            | None =>
                match orderedMatch line with
                | Some g => pushItem ol g st
                | None =>
                    emit (lit "<p>" ++ applyInlineFormatting line ++ lit "</p>")
                         (flushList st)
                end
            end
        end
    end.

Definition scan (st : state) (lines : list (list C)) : state := fold_left step lines st.

Definition finish (st : state) : state := flushCode (flushList st).

(** The block pass: everything up to the [return]. *)
Definition blockPass (text : list C) : list C :=
  html (finish (scan initial (split text))).

(** An empty string is falsy. *)
Definition formatMessageText (text : list C) : list C :=
  match blockPass text with
  | [] => applyInlineFormatting text
  | out => out
  end.

End Renderer.

(** A string of the program itself. *)
Definition js (s : string) : list N := lit s.

Local Open Scope string_scope.
Local Open Scope list_scope.
Unset Implicit Arguments.

(** * The vocabulary of the properties *)

(** The hyperlink that wraps [url] and opens it in a new browsing context. *)
Definition anchorFor (url : string) : list N :=
  js ("<a href=" ++ dq ++ url ++ dq ++ " target=" ++ dq ++ "_blank" ++ dq ++ ">" ++ url ++ "</a>")%string.

(** The entities and tags that the renderer writes. *)
Definition entities : list string := ["&amp;"; "&lt;"; "&gt;"].

Definition inlineTags : list string :=
  ["<strong>"; "</strong>"; "<em>"; "</em>"; "<code>"; "</code>"].

Definition blockTags : list string :=
  ["</a>"; "<ul>"; "</ul>"; "<ol>"; "</ol>"; "<li>"; "</li>"; "<pre>"; "</pre>";
   "<br>"; "<h3>"; "</h3>"; "<h4>"; "</h4>"; "<h5>"; "</h5>"; "<p>"; "</p>"].

(** No string of [L] holds the code unit [x]. *)
Definition avoids (x : N) (L : list string) : bool :=
  forallb (fun t => negb (existsb (N.eqb x) (codes t))) L.

Section Vocabulary.

Context {C : Type} `{CodeUnit C}.

Implicit Types (st : @state C) (rawLine line : list C).

(** What the contract says [escapeHtml] does to one character. *)
Definition escapeChar (c : C) : list C :=
  if (code c =? AMP)%N then lit "&amp;"
  else if (code c =? LT)%N then lit "&lt;"
  else if (code c =? GT)%N then lit "&gt;"
  else [c].

(** The four substitutions of [applyInlineFormatting] behind its call of
    [escapeHtml]: the inline formatter on escaped text. *)
Definition formatInline (escaped : list C) : list C :=
  linkPass (codePass (italicPass (boldPass escaped))).

(** At most one buffer is open, and the kind of list is set exactly while
    the list buffer holds an item. *)
Definition exclusive st : Prop :=
  (if inCodeBlock st
   then listBuffer st = [] /\ listType st = None
   else codeBuffer st = [])
  /\ (listBuffer st = [] <-> listType st = None).

(** The markup that [flushCode] and [flushList] append. *)
Definition codeBlockOf (buffer : list (list C)) : list C :=
  match buffer with
  | [] => []
  | _ :: _ => lit "<pre><code>" ++ escapeHtml (join (lit nl) buffer) ++ lit "</code></pre>"
  end.

Definition listBlockOf (t : option listKind) (buffer : list (list C)) : list C :=
  match buffer with
  | [] => []
  | _ :: _ => lit "<" ++ listTypeName t ++ lit ">" ++ concat buffer
              ++ lit "</" ++ listTypeName t ++ lit ">"
  end.

(** The lines that [step] treats as list items outside a code block, with
    the kind of list and the text of the item. *)
Definition itemLine rawLine : option (listKind * list C) :=
  let line := trimEnd rawLine in
  if startsWith fence line then None
  else match trim line with
       | [] => None
       | _ :: _ =>
           match headingMatch line with
           | Some _ => None
           | None =>
               match bulletMatch line with
               | Some g => Some (ul, g)
               | None => option_map (fun g => (ol, g)) (orderedMatch line)
               end
           end
       end.

(** A list item, a list block of items, and the lines of a list. *)
Definition li (g : list C) : list C :=
  lit "<li>" ++ applyInlineFormatting g ++ lit "</li>".

Definition listBlock (k : listKind) (gs : list (list C)) : list C :=
  lit "<" ++ listTypeName (Some k) ++ lit ">" ++ concat (map li gs)
    ++ lit "</" ++ listTypeName (Some k) ++ lit ">".

Definition itemLines (k : listKind) (rawLines gs : list (list C)) : Prop :=
  Forall2 (fun rawLine g => itemLine rawLine = Some (k, g)) rawLines gs.

(** A text made of characters that are no ampersand, less-than or
    greater-than sign and of literals of [L] written by the renderer. *)
Inductive Tok (L : list string) : list C -> Prop :=
  | Tok_nil : Tok L []
  | Tok_char c s : isSpecial (code c) = false -> Tok L s -> Tok L (c :: s)
  | Tok_lit t s : In t L -> Tok L s -> Tok L (lit t ++ s).

(** The markup of the renderer: such characters, the entities, the tags,
    and the opening tag of a hyperlink around an escaped URL. *)
Inductive Markup : list C -> Prop :=
  | Markup_nil : Markup []
  | Markup_char c s : isSpecial (code c) = false -> Markup s -> Markup (c :: s)
  | Markup_lit t s :
      In t (entities ++ inlineTags ++ blockTags) -> Markup s -> Markup (lit t ++ s)
  | Markup_anchor u s : Tok entities u -> Markup s -> Markup (anchorOpen u ++ s).

(** What follows a URL: nothing, a space or a less-than sign. *)
Definition stops (rest : list C) : Prop :=
  match rest with
  | [] => True
  | c :: _ => (isSpace (code c) || (code c =? LT)%N) = true
  end.

(** The markup written so far and the buffered items are markup. *)
Definition okMarkup st : Prop := Markup (html st) /\ Forall Markup (listBuffer st).

(** The code units of a text, of a match and of a state. *)
Definition erase (s : list C) : list N := map code s.

Definition eraseMatch (r : option (list C * nat)) : option (list N * nat) :=
  option_map (fun x => (erase (fst x), snd x)) r.

Definition eraseState st : @state N :=
  {| html := erase (html st);
     listBuffer := map erase (listBuffer st);
     listType := listType st;
     inCodeBlock := inCodeBlock st;
     codeBuffer := map erase (codeBuffer st) |}.

End Vocabulary.

Arguments erase : simpl never.

(** * The vocabulary of the further properties *)

(** A code unit that ends no line. *)
Definition notLineTerminator (n : N) : bool := negb (isLineTerminator n).

(** A character that can start a paragraph: no space, hash, backtick,
    bullet character or digit. *)
Definition startsText (n : N) : bool :=
  negb (isSpace n || (n =? HASH)%N || (n =? BACKTICK)%N || isBullet n || isDigit n).

Section FurtherVocabulary.

Context {C : Type} `{CodeUnit C}.

Implicit Types (st : @state C).

(** The state with the markup [h] in front of its own. *)
Definition prependHtml (h : list C) st : state :=
  {| html := h ++ html st; listBuffer := listBuffer st; listType := listType st;
     inCodeBlock := inCodeBlock st; codeBuffer := codeBuffer st |}.

(** The delimiter [d] occurs somewhere in [s]. *)
Fixpoint occurs (d : list N) (s : list C) : bool :=
  startsWith d s || match s with [] => false | _ :: r => occurs d r end.

End FurtherVocabulary.

(** * The chat application around the renderer

    The methods of [ChatApp] that read and write the page.  The fields of
    the state are the properties of the DOM elements and of the object
    that the methods assign; what the browser decides (the answer of the
    server, the answer to [confirm], the result of the clipboard, the
    clock, the layout's [scrollHeight]) is an argument.  The children of
    the element chatMessages are known only through what the methods do
    to them: append a message, and, in [clearChat], keep the first element
    of class bot-message. *)

(** The element that [addMessage] builds. *)
Record message : Type := mkMessage {
  className : list N;
  avatar : list N;
  messageText : list N;
  messageTime : list N
}.

Class ChatDom (Chat : Type) : Type := {
  appendChild : message -> Chat -> Chat;
  keepFirstBotMessage : Chat -> Chat
}.

(** [===] on strings. *)
Fixpoint strEq (a b : list N) : bool :=
  match a, b with
  | [], [] => true
  | x :: a', y :: b' => (x =? y)%N && strEq a' b'
  | _, _ => false
  end.

(** A number inside a template literal or added to a string. *)
Definition decimal (n : nat) : list N := js (NilZero.string_of_uint (Nat.to_uint n)).

Record statusLine : Type := mkStatus {
  statusText : list N;
  statusDotClass : list N;
  statusBackground : list N
}.

Record composer : Type := mkComposer {
  inputValue : list N;
  inputHeight : list N;
  sendDisabled : bool;
  charCountText : list N;
  charCountColor : list N
}.

Record modal : Type := mkModal {
  errorMessage : list N;
  errorShown : bool
}.

(** The attribute data-theme of the root and of the body, the item theme
    of localStorage, the class of the icon and the title of the button. *)
Record theme : Type := mkTheme {
  rootTheme : option (list N);
  bodyTheme : option (list N);
  storedTheme : option (list N);
  themeIcon : list N;
  themeTitle : list N
}.

(** What [showToast] shows. *)
Record toast : Type := mkToast {
  toastText : list N;
  toastBackground : list N
}.

(** What the awaited request comes to.  [Data] is a body that is an
    object whose response is a string; [success] says whether its field
    success is truthy. *)
Inductive outcome : Type :=
  | NetworkError                       (* fetch rejects *)
  | HttpError (status : nat)           (* response.ok is false *)
  | BadJson                            (* response.json() rejects *)
  | Data (success : bool) (response error : list N).

(** Whether the outcome is the answer of the server with success set. *)
Definition succeeded (o : outcome) : bool :=
  match o with
  | Data true _ _ => true
  | _ => false
  end.

Section ChatApp.

Context {Chat : Type} `{ChatDom Chat}.

Record chatApp : Type := mkApp {
  chatMessages : Chat;
  messageInput : composer;
  typingShown : bool;
  isTyping : bool;
  lastBotMessage : list N;
  status : statusLine;
  errorModal : modal;
  document : theme
}.

(** ** Theme *)

Definition setTheme (t : list N) (th : theme) : theme :=
  {| rootTheme := Some t;
     bodyTheme := Some t;
     storedTheme := Some t;
     themeIcon := if strEq t (js "dark") then js "fas fa-sun" else js "fas fa-moon";
     themeTitle := if strEq t (js "dark")
                   then js "Switch to Light Theme" else js "Switch to Dark Theme" |}.

(** [getItem] answers null for a missing item; null and the empty string
    are falsy. *)
Definition initTheme (th : theme) : theme :=
  let savedTheme :=
    match storedTheme th with
    | Some (c :: s) => c :: s
    | Some [] | None => js "light"
    end in
  setTheme savedTheme th.

(** [getAttribute] answers null for a missing attribute. *)
Definition toggleTheme (th : theme) : theme :=
  let newTheme :=
    match rootTheme th with
    | Some currentTheme => if strEq currentTheme (js "dark") then js "light" else js "dark"
    | None => js "dark"
    end in
  setTheme newTheme th.

(** ** Status, counter, button *)

Definition setStatus (st text : list N) (a : chatApp) : chatApp :=
  {| chatMessages := chatMessages a;
     messageInput := messageInput a;
     typingShown := typingShown a;
     isTyping := isTyping a;
     lastBotMessage := lastBotMessage a;
     status :=
       {| statusText := text;
          statusDotClass := js "status-dot";
          statusBackground :=
            if strEq st (js "ready") then js "#4CAF50"
            else if strEq st (js "typing") then js "#FF9800"
            else if strEq st (js "error") then js "#f44336"
            else js "#666" |};
     errorModal := errorModal a;
     document := document a |}.

Definition withInput (c : composer) (a : chatApp) : chatApp :=
  {| chatMessages := chatMessages a;
     messageInput := c;
     typingShown := typingShown a;
     isTyping := isTyping a;
     lastBotMessage := lastBotMessage a;
     status := status a;
     errorModal := errorModal a;
     document := document a |}.

(** [scrollHeight] is what the layout reports once the height is auto. *)
Definition autoResizeTextarea (scrollHeight : nat) (a : chatApp) : chatApp :=
  let c := messageInput a in
  withInput {| inputValue := inputValue c;
               inputHeight := decimal (Nat.min scrollHeight 120) ++ js "px";
               sendDisabled := sendDisabled c;
               charCountText := charCountText c;
               charCountColor := charCountColor c |} a.

Definition updateCharCount (a : chatApp) : chatApp :=
  let c := messageInput a in
  let count := length (inputValue c) in
  withInput {| inputValue := inputValue c;
               inputHeight := inputHeight c;
               sendDisabled := sendDisabled c;
               charCountText := decimal count ++ js "/1000";
               charCountColor :=
                 if (900 <? count)%nat then js "#f44336"
                 else if (700 <? count)%nat then js "#FF9800"
                 else js "#666" |} a.

Definition toggleSendButton (a : chatApp) : chatApp :=
  let c := messageInput a in
  let hasText := (0 <? length (trim (inputValue c)))%nat in
  withInput {| inputValue := inputValue c;
               inputHeight := inputHeight c;
               sendDisabled := negb hasText || isTyping a;
               charCountText := charCountText c;
               charCountColor := charCountColor c |} a.

Definition setValue (v : list N) (a : chatApp) : chatApp :=
  let c := messageInput a in
  withInput {| inputValue := v;
               inputHeight := inputHeight c;
               sendDisabled := sendDisabled c;
               charCountText := charCountText c;
               charCountColor := charCountColor c |} a.

(** The listener of the input event, after the browser has set the
    value. *)
Definition onInput (v : list N) (scrollHeight : nat) (a : chatApp) : chatApp :=
  toggleSendButton (updateCharCount (autoResizeTextarea scrollHeight (setValue v a))).

(** ** Typing indicator and error modal *)

Definition setTyping (b : bool) (a : chatApp) : chatApp :=
  {| chatMessages := chatMessages a;
     messageInput := messageInput a;
     typingShown := b;
     isTyping := b;
     lastBotMessage := lastBotMessage a;
     status := status a;
     errorModal := errorModal a;
     document := document a |}.

Definition showTypingIndicator (a : chatApp) : chatApp := setTyping true a.

Definition hideTypingIndicator (a : chatApp) : chatApp := setTyping false a.

Definition withModal (m : modal) (a : chatApp) : chatApp :=
  {| chatMessages := chatMessages a;
     messageInput := messageInput a;
     typingShown := typingShown a;
     isTyping := isTyping a;
     lastBotMessage := lastBotMessage a;
     status := status a;
     errorModal := m;
     document := document a |}.

Definition showErrorModal (msg : list N) (a : chatApp) : chatApp :=
  withModal {| errorMessage := msg; errorShown := true |} a.

Definition hideErrorModal (a : chatApp) : chatApp :=
  withModal {| errorMessage := errorMessage (errorModal a); errorShown := false |} a.

(** ** Messages *)

Definition userIcon : list N := js ("<i class=" ++ dq ++ "fas fa-user" ++ dq ++ "></i>")%string.
Definition robotIcon : list N := js ("<i class=" ++ dq ++ "fas fa-robot" ++ dq ++ "></i>")%string.

(** [now] is what [getCurrentTime] answers. *)
Definition messageElement (text sender now : list N) : message :=
  {| className := js "message " ++ sender ++ js "-message";
     avatar := if strEq sender (js "user") then userIcon else robotIcon;
     messageText := formatMessageText text;
     messageTime := now |}.

Definition addMessage (text sender now : list N) (a : chatApp) : chatApp :=
  {| chatMessages := appendChild (messageElement text sender now) (chatMessages a);
     messageInput := messageInput a;
     typingShown := typingShown a;
     isTyping := isTyping a;
     lastBotMessage := lastBotMessage a;
     status := status a;
     errorModal := errorModal a;
     document := document a |}.

Definition setLastBotMessage (r : list N) (a : chatApp) : chatApp :=
  {| chatMessages := chatMessages a;
     messageInput := messageInput a;
     typingShown := typingShown a;
     isTyping := isTyping a;
     lastBotMessage := r;
     status := status a;
     errorModal := errorModal a;
     document := document a |}.

(** ** sendMessage

    The method up to its [await]: the state it leaves and the message it
    posts, if it posts one. *)
Definition sendMessageStart (scrollHeight : nat) (now : list N) (a : chatApp)
    : chatApp * option (list N) :=
  let msg := trim (inputValue (messageInput a)) in
  match msg with
  | [] => (a, None)
  | _ :: _ =>
      if isTyping a then (a, None)
      else
        let a := addMessage msg (js "user") now a in
        let a := setValue [] a in
        let a := autoResizeTextarea scrollHeight a in
        let a := updateCharCount a in
        let a := toggleSendButton a in
        let a := showTypingIndicator a in
        let a := setStatus (js "typing") (js "AI is typing...") a in
        (a, Some msg)
  end.

(** The [catch] block. *)
Definition sendMessageFailed (a : chatApp) : chatApp :=
  showErrorModal (js "Failed to get response from AI. Please try again.")
    (setStatus (js "error") (js "Connection Error") (hideTypingIndicator a)).

(** The method behind its [await], on the state the page is in when the
    request settles. *)
Definition sendMessageFinish (o : outcome) (now : list N) (a : chatApp) : chatApp :=
  match o with
  | NetworkError | HttpError _ | BadJson => sendMessageFailed a
  | Data success response _ =>
      let a := hideTypingIndicator a in
      if success
      then setStatus (js "ready") (js "Ready")
             (setLastBotMessage response (addMessage response (js "bot") now a))
      else sendMessageFailed a
  end.

(** ** clearChat and copyLastResponse *)

Definition clearChat (confirmed : bool) (a : chatApp) : chatApp :=
  if confirmed
  then setStatus (js "ready") (js "Chat cleared")
         (setLastBotMessage []
            {| chatMessages := keepFirstBotMessage (chatMessages a);
               messageInput := messageInput a;
               typingShown := typingShown a;
               isTyping := isTyping a;
               lastBotMessage := lastBotMessage a;
               status := status a;
               errorModal := errorModal a;
               document := document a |})
  else a.

Definition showToast (msg : list N) (a : chatApp) : toast :=
  let isDark :=
    match rootTheme (document a) with
    | Some t => strEq t (js "dark")
    | None => false
    end in
  {| toastText := msg;
     toastBackground := if isDark then js "#2a2a3e" else js "#333" |}.

(** What is written to the clipboard, if anything, and the toast;
    [written] says whether [writeText] succeeds. *)
Definition copyLastResponse (written : bool) (a : chatApp) : option (list N) * toast :=
  match lastBotMessage a with
  | [] => (None, showToast (js "No response to copy") a)
  | r =>
      (Some r,
       showToast (if written then js "Response copied to clipboard!"
                  else js "Failed to copy to clipboard") a)
  end.

Definition withDocument (th : theme) (a : chatApp) : chatApp :=
  {| chatMessages := chatMessages a;
     messageInput := messageInput a;
     typingShown := typingShown a;
     isTyping := isTyping a;
     lastBotMessage := lastBotMessage a;
     status := status a;
     errorModal := errorModal a;
     document := th |}.

(** ** The page over time

    What happens to the page, one event after the other; the number
    counts the requests that have not settled. *)
Inductive event : Type :=
  | Typed (value : list N) (scrollHeight : nat)
  | Send (scrollHeight : nat) (now : list N)
  | Settled (o : outcome) (now : list N)
  | Clear (confirmed : bool)
  | ThemeToggled
  | ModalClosed.

Definition handle (e : event) (w : chatApp * nat) : option (chatApp * nat) :=
  let (a, pending) := w in
  match e with
  | Typed v h => Some (onInput v h a, pending)
  | Send h now =>
      let (a', posted) := sendMessageStart h now a in
      Some (a', match posted with Some _ => S pending | None => pending end)
  | Settled o now =>
      match pending with
      | O => None
      | S n => Some (sendMessageFinish o now a, n)
      end
  | Clear confirmed => Some (clearChat confirmed a, pending)
  | ThemeToggled => Some (withDocument (toggleTheme (document a)) a, pending)
  | ModalClosed => Some (hideErrorModal a, pending)
  end.

Fixpoint run (es : list event) (w : chatApp * nat) : option (chatApp * nat) :=
  match es with
  | [] => Some w
  | e :: es' =>
      match handle e w with
      | Some w' => run es' w'
      | None => None
      end
  end.

(** The page awaits at most one answer. *)
Definition awaiting (w : chatApp * nat) : Prop :=
  snd w <= 1
  /\ (isTyping (fst w) = true <-> snd w = 1)
  /\ typingShown (fst w) = isTyping (fst w)
  /\ (isTyping (fst w) = true -> sendDisabled (messageInput (fst w)) = true).

End ChatApp.

(** A chat kept as the list of its message elements, and a page, to run
    the methods on. *)
Definition listChat : ChatDom (list message) :=
  {| appendChild := fun m chat => chat ++ [m];
     keepFirstBotMessage := fun chat =>
       match find (fun m => strEq (className m) (js "message bot-message")) chat with
       | Some m => [m]
       | None => []
       end |}.

Definition pageWith (value : list N) (typing : bool) : @chatApp (list message) :=
  {| chatMessages := [];
     messageInput := mkComposer value [] false [] [];
     typingShown := typing;
     isTyping := typing;
     lastBotMessage := [];
     status := mkStatus [] [] [];
     errorModal := mkModal [] false;
     document := mkTheme None None None [] [] |}.

(** * Properties *)

(** ** Global replacement *)

Section ReplaceFacts.

Context {C : Type} `{CodeUnit C}.

Lemma replaceFrom_nil (m : @matcher C) repl k : replaceFrom m repl k [] = [].
Proof. destruct k; reflexivity. Qed.

(** Passing [k] code units is dropping them. *)
Lemma replaceFrom_skipn (m : @matcher C) repl : forall k s,
  replaceFrom m repl k s = replaceAll m repl (skipn k s).
Proof.
  induction k as [|k IH]; intros s.
  - reflexivity.
  - destruct s as [|c r]; [reflexivity|]. simpl. apply IH.
Qed.

(** The scan resumes behind a match. *)
Lemma replaceAll_match (m : @matcher C) repl c r g len :
  m (c :: r) = Some (g, S len) ->
  replaceAll m repl (c :: r) = repl g ++ replaceAll m repl (skipn (S len) (c :: r)).
Proof.
  intros Hm. unfold replaceAll at 1. simpl. rewrite Hm. simpl.
  now rewrite replaceFrom_skipn.
Qed.

Lemma replaceAll_nomatch (m : @matcher C) repl c r :
  m (c :: r) = None ->
  replaceAll m repl (c :: r) = c :: replaceAll m repl r.
Proof. intros Hm. unfold replaceAll. simpl. now rewrite Hm. Qed.

Lemma replaceAll_matchChar x (r : list C) : forall s,
  replaceAll (matchChar x) (fun _ => r) s
  = flat_map (fun c => if (code c =? x)%N then r else [c]) s.
Proof.
  induction s as [|c s IH]; [reflexivity|].
  destruct (code c =? x)%N eqn:E.
  - rewrite replaceAll_match with (g := []) (len := 0) by (simpl; now rewrite E).
    simpl. rewrite E. now rewrite IH.
  - rewrite replaceAll_nomatch by (simpl; now rewrite E).
    simpl. rewrite E. simpl. now rewrite IH.
Qed.

Lemma flat_map_flat_map {A B D : Type} (f : A -> list B) (g : B -> list D) (l : list A) :
  flat_map g (flat_map f l) = flat_map (fun a => flat_map g (f a)) l.
Proof.
  induction l as [|a l IH]; [reflexivity|].
  simpl. now rewrite flat_map_app, IH.
Qed.

End ReplaceFacts.

(** ** The escaper *)

Section Escaper.

Context {C : Type} `{CodeUnit C}.

Lemma escapeHtml_flat_map (str : list C) : escapeHtml str = flat_map escapeChar str.
Proof.
  unfold escapeHtml. rewrite !replaceAll_matchChar, !flat_map_flat_map.
  apply flat_map_ext. intros c. unfold escapeChar.
  destruct (code c =? AMP)%N eqn:Ea.
  - repeat (cbn; rewrite ?code_gen). reflexivity.
  - destruct (code c =? LT)%N eqn:El.
    + cbn. rewrite El. repeat (cbn; rewrite ?code_gen). reflexivity.
    + cbn. rewrite El. cbn. destruct (code c =? GT)%N; reflexivity.
Qed.

(** C4.  [escapeHtml] is the three global replacements of the source in
    their order, ampersand first, and its result is the input with every
    ampersand, less-than and greater-than sign replaced by its entity and
    every other character kept: the ampersand of an entity that the first
    replacement wrote is not encoded again.  The function is total. *)
Theorem escapeHtml_contract (str : list C) :
  escapeHtml str
  = replaceAll (matchChar GT) (fun _ => lit "&gt;")
      (replaceAll (matchChar LT) (fun _ => lit "&lt;")
        (replaceAll (matchChar AMP) (fun _ => lit "&amp;") str))
  /\ escapeHtml str = flat_map escapeChar str
  /\ (forall c, isSpecial (code c) = false -> escapeChar c = [c])
  /\ (forall c, code c = AMP -> escapeChar c = lit "&amp;")
  /\ (forall c, code c = LT -> escapeChar c = lit "&lt;")
  /\ (forall c, code c = GT -> escapeChar c = lit "&gt;").
Proof.
  split; [reflexivity|]. split; [apply escapeHtml_flat_map|].
  unfold escapeChar, isSpecial. repeat split; intros c Hc.
  - apply orb_false_iff in Hc as [Hc Hg]. apply orb_false_iff in Hc as [Ha Hl].
    now rewrite Ha, Hl, Hg.
  - now rewrite Hc.
  - now rewrite Hc.
  - now rewrite Hc.
Qed.

End Escaper.

Lemma escapeHtml_contract_witness :
  escapeHtml (js "a&<b>") = js "a&amp;&lt;b&gt;"
  /\ escapeChar 97%N = [97%N]
  /\ escapeChar AMP = js "&amp;"
  /\ escapeChar LT = js "&lt;"
  /\ escapeChar GT = js "&gt;".
Proof.
  destruct (escapeHtml_contract (js "a&<b>")) as (_ & Hmap & Hkeep & Hamp & Hlt & Hgt).
  split; [rewrite Hmap; vm_compute; reflexivity|].
  split; [apply Hkeep; reflexivity|].
  split; [apply Hamp; reflexivity|].
  split; [apply Hlt; reflexivity|apply Hgt; reflexivity].
Defined.

(** ** The inline formatter on the unit inputs *)

Section Laziness.

Context {C : Type} `{CodeUnit C}.

(** The run that [span] takes and what it leaves. *)
Lemma span_run (p : N -> bool) : forall s : list C,
  Forall (fun c => p (code c) = true) (fst (span p s))
  /\ skipn (length (fst (span p s))) s = snd (span p s).
Proof.
  induction s as [|c s [IH1 IH2]]; [cbn; auto|].
  cbn. destruct (p (code c)) eqn:Ep; [|cbn; auto].
  destruct (span p s) as [a b]. cbn in *. split; [now constructor|assumption].
Qed.

(** The lazy group stops at the first place where the closing delimiter
    follows at least one character. *)
Lemma lazyUntil_shortest (d : list N) : forall (s g : list C),
  lazyUntil d s = Some g ->
  g = firstn (length g) s
  /\ 1 <= length g
  /\ startsWith d (skipn (length g) s) = true
  /\ (forall k, 1 <= k < length g -> startsWith d (skipn k s) = false)
  /\ Forall (fun c => isLineTerminator (code c) = false) g.
Proof.
  induction s as [|c r IH]; intros g Hg; [discriminate|].
  simpl in Hg. destruct (isLineTerminator (code c)) eqn:Elt; [discriminate|].
  destruct (startsWith d r) eqn:Ed.
  - injection Hg as <-. simpl. repeat split; auto.
    intros k Hk. lia.
  - destruct (lazyUntil d r) as [g'|] eqn:Eg; [|discriminate].
    injection Hg as <-. destruct (IH g' eq_refl) as (H1 & H2 & H3 & H4 & H5).
    simpl. repeat split.
    + now rewrite <- H1.
    + lia.
    + exact H3.
    + intros k Hk. destruct k as [|k]; [lia|]. simpl.
      destruct k as [|k]; [exact Ed|]. apply H4. lia.
    + constructor; assumption.
Qed.

Lemma matchCode_group (s g : list C) len :
  matchCode s = Some (g, len) ->
  Forall (fun c => code c <> BACKTICK) g
  /\ startsWith [BACKTICK] (skipn (1 + length g) s) = true.
Proof.
  unfold matchCode. destruct (startsWith [BACKTICK] s); [|discriminate].
  pose proof (span_run (fun n => negb (n =? BACKTICK)%N) (skipn 1 s)) as [Hrun Hrest].
  destruct (span (fun n => negb (n =? BACKTICK)%N) (skipn 1 s)) as [g' r].
  cbn [fst snd] in *. destruct g' as [|c g']; [discriminate|].
  destruct (startsWith [BACKTICK] r) eqn:Hr; [|discriminate].
  intros Hm. injection Hm as <- _. split.
  - eapply Forall_impl; [|exact Hrun]. cbn. intros a Ha.
    apply negb_true_iff in Ha. now apply N.eqb_neq.
  - replace (1 + length (c :: g')) with (length (c :: g') + 1) by lia.
    rewrite <- skipn_skipn, Hrest. exact Hr.
Qed.

End Laziness.

(** C5.  On the four unit inputs, which escaping leaves as they are, the
    inline formatter returns the strong, emphasis, code and hyperlink
    markup (the hyperlink carries the target of a new browsing context);
    it is the four substitutions in the order bold, italic, inline code,
    autolink, and [applyInlineFormatting] runs it on the escaped text; a
    delimited span is the shortest one: the group of a bold or italic
    match ends at the first closing delimiter behind its first character,
    the group of an inline code match holds no backtick, so two spans on a
    line stay two spans. *)
Theorem applyInlineFormatting_units :
  formatInline (js "**bold**") = js "<strong>bold</strong>"
  /\ formatInline (js "*em*") = js "<em>em</em>"
  /\ formatInline (js "`code`") = js "<code>code</code>"
  /\ formatInline (js "http://x.com") = anchorFor "http://x.com"
  /\ (forall str : list N,
        applyInlineFormatting str = formatInline (escapeHtml str)
        /\ formatInline str = linkPass (codePass (italicPass (boldPass str))))
  /\ (forall (d : list N) (s g : list N) (len : nat),
        matchDelimited d s = Some (g, len) ->
        startsWith d s = true
        /\ g = firstn (length g) (skipn (length d) s)
        /\ startsWith d (skipn (length d + length g) s) = true
        /\ forall k, 1 <= k < length g ->
             startsWith d (skipn (length d + k) s) = false)
  /\ (forall (s g : list N) (len : nat),
        matchCode s = Some (g, len) ->
        Forall (fun c => c <> BACKTICK) g
        /\ startsWith [BACKTICK] (skipn (1 + length g) s) = true)
  /\ formatInline (js "**a** b **c**") = js "<strong>a</strong> b <strong>c</strong>"
  /\ formatInline (js "*a* b *c*") = js "<em>a</em> b <em>c</em>"
  /\ formatInline (js "`a` b `c`") = js "<code>a</code> b <code>c</code>"
  /\ escapeHtml (js "**bold** *em* `code` http://x.com") = js "**bold** *em* `code` http://x.com".
Proof.
  assert (Hshape : forall (d : list N) (s g : list N) (len : nat),
    matchDelimited d s = Some (g, len) ->
    startsWith d s = true /\ lazyUntil d (skipn (length d) s) = Some g).
  { intros d s g len Hm. unfold matchDelimited in Hm.
    destruct (startsWith d s); [|discriminate].
    destruct (lazyUntil d (skipn (length d) s)) as [g'|]; [|discriminate].
    injection Hm as <- _. now split. }
  split; [vm_compute; reflexivity|]. split; [vm_compute; reflexivity|].
  split; [vm_compute; reflexivity|]. split; [vm_compute; reflexivity|].
  split; [intros str; split; reflexivity|].
  split; [|split; [|repeat split; vm_compute; reflexivity]].
  - intros d s g len Hm. destruct (Hshape d s g len Hm) as [Hd Hg].
    destruct (lazyUntil_shortest d _ _ Hg) as (Hfirst & _ & Hclose & Hnone & _).
    split; [assumption|]. split; [assumption|]. split.
    + rewrite Nat.add_comm, <- skipn_skipn. exact Hclose.
    + intros k Hk. rewrite Nat.add_comm, <- skipn_skipn. now apply Hnone.
  - intros s g len Hm. exact (matchCode_group s g len Hm).
Qed.

Lemma applyInlineFormatting_units_witness :
  startsWith [STAR; STAR] (skipn 3 (js "**a** b **c**")) = true.
Proof.
  destruct applyInlineFormatting_units as (_ & _ & _ & _ & _ & Hshort & _).
  destruct (Hshort [STAR; STAR] (js "**a** b **c**") (js "a") 5) as (_ & _ & Hclose & _).
  - vm_compute. reflexivity.
  - exact Hclose.
Defined.

(** C10.  The autolink substitution runs over the result of the inline
    code substitution, so a URL between backticks is wrapped in a code tag
    and hyperlinked inside it. *)
Theorem autolink_inside_code :
  formatInline (js "`http://x.com`")
  = js "<code>" ++ anchorFor "http://x.com" ++ js "</code>"
  /\ formatInline (js "`http://x.com`") <> js "<code>http://x.com</code>"
  /\ escapeHtml (js "`http://x.com`") = js "`http://x.com`"
  /\ applyInlineFormatting (js "`http://x.com`")
     = js "<code>" ++ anchorFor "http://x.com" ++ js "</code>"
  /\ codePass (escapeHtml (js "`http://x.com`")) = js "<code>http://x.com</code>"
  /\ linkPass (js "<code>http://x.com</code>")
     = js "<code>" ++ anchorFor "http://x.com" ++ js "</code>".
Proof.
  split; [vm_compute; reflexivity|]. split; [vm_compute; discriminate|].
  repeat split; vm_compute; reflexivity.
Qed.

(** ** The line scan *)

Section ScanFacts.

Context {C : Type} `{CodeUnit C}.

Implicit Types (st : @state C) (rawLine line : list C).

Lemma exclusive_initial : exclusive (@initial C).
Proof. repeat split. Qed.

Lemma flushList_buffer st : listBuffer (flushList st) = [].
Proof. unfold flushList. destruct (listBuffer st) eqn:E; [exact E|reflexivity]. Qed.

Lemma flushList_inCodeBlock st : inCodeBlock (flushList st) = inCodeBlock st.
Proof. unfold flushList. now destruct (listBuffer st). Qed.

Lemma flushList_codeBuffer st : codeBuffer (flushList st) = codeBuffer st.
Proof. unfold flushList. now destruct (listBuffer st). Qed.

Lemma flushList_listType st :
  (listBuffer st = [] <-> listType st = None) -> listType (flushList st) = None.
Proof.
  unfold flushList. intros Hk. destruct (listBuffer st) eqn:E; [|reflexivity].
  now apply Hk.
Qed.

Lemma flushList_closed st : listBuffer st = [] -> flushList st = st.
Proof. unfold flushList. now intros ->. Qed.

Lemma flushCode_closed st : codeBuffer st = [] -> flushCode st = st.
Proof. unfold flushCode. now intros ->. Qed.

Lemma flushCode_buffer st : codeBuffer (flushCode st) = [].
Proof. unfold flushCode. destruct (codeBuffer st) eqn:E; [exact E|reflexivity]. Qed.

Lemma flushCode_lists st :
  listBuffer (flushCode st) = listBuffer st
  /\ listType (flushCode st) = listType st
  /\ inCodeBlock (flushCode st) = inCodeBlock st.
Proof. unfold flushCode. now destruct (codeBuffer st). Qed.

Lemma exclusive_flushed st (x : list C) :
  exclusive st -> inCodeBlock st = false -> exclusive (emit x (flushList st)).
Proof.
  intros [Hb Hk] Hc. rewrite Hc in Hb. unfold exclusive. cbn.
  rewrite flushList_inCodeBlock, Hc, flushList_codeBuffer, flushList_buffer,
    (flushList_listType st Hk).
  repeat split; auto.
Qed.

Lemma exclusive_pushItem st k item :
  exclusive st -> inCodeBlock st = false -> exclusive (pushItem k item st).
Proof.
  intros [Hb Hk] Hc. rewrite Hc in Hb. unfold exclusive, pushItem.
  destruct (listType st) as [k'|] eqn:Et.
  - destruct (listKind_eqb k' k); cbn;
      rewrite ?flushList_inCodeBlock, ?Hc, ?flushList_codeBuffer, ?Et;
      (split; [assumption|]); split; intros Hx; try discriminate;
      now apply app_eq_nil in Hx as [_ Hx].
  - cbn. rewrite flushList_inCodeBlock, Hc, flushList_codeBuffer.
    split; [assumption|]. split; intros Hx; try discriminate.
    now apply app_eq_nil in Hx as [_ Hx].
Qed.

Lemma step_exclusive st rawLine : exclusive st -> exclusive (step st rawLine).
Proof.
  intros Hex. pose proof Hex as [Hb Hk]. unfold step.
  destruct (startsWith fence (trimEnd rawLine)).
  - destruct (inCodeBlock st) eqn:Hc.
    + destruct Hb as [Hl Ht]. destruct (flushCode_lists st) as (E1 & E2 & _).
      unfold exclusive. cbn. rewrite flushCode_buffer, E1, E2. tauto.
    + unfold exclusive. cbn.
      rewrite flushList_buffer, (flushList_listType st Hk). tauto.
  - destruct (inCodeBlock st) eqn:Hc.
    + unfold exclusive. cbn. rewrite Hc. tauto.
    + destruct (trim (trimEnd rawLine)); [now apply exclusive_flushed|].
      destruct (headingMatch (trimEnd rawLine)) as [[n g]|];
        [now apply exclusive_flushed|].
      destruct (bulletMatch (trimEnd rawLine)); [now apply exclusive_pushItem|].
      destruct (orderedMatch (trimEnd rawLine)); [now apply exclusive_pushItem|].
      now apply exclusive_flushed.
Qed.

Lemma scan_exclusive : forall lines st, exclusive st -> exclusive (scan st lines).
Proof.
  induction lines as [|l lines IH]; intros st Hex; [exact Hex|].
  apply IH. now apply step_exclusive.
Qed.

Lemma scan_app st (l1 l2 : list (list C)) : scan st (l1 ++ l2) = scan (scan st l1) l2.
Proof. apply fold_left_app. Qed.

(** C9.  After any number of lines of any text at most one of the two
    buffers holds something: inside a code block the list buffer is empty
    and no list kind is set, outside it the code buffer is empty.  A line
    read inside a code block never reaches the list buffer, and the fence
    that opens a code block flushes the list buffer first. *)
Theorem buffers_exclusive (text : list C) (n : nat) (rawLine : list C) :
  let st := scan initial (firstn n (split text)) in
  (listBuffer st = [] \/ codeBuffer st = [])
  /\ (if inCodeBlock st
      then listBuffer st = [] /\ listType st = None
      else codeBuffer st = [])
  /\ (if inCodeBlock st
      then listBuffer (step st rawLine) = [] /\ listType (step st rawLine) = None
      else True)
  /\ (if negb (inCodeBlock st) && startsWith fence (trimEnd rawLine)
      then step st rawLine = setInCodeBlock true (flushList st)
           /\ listBuffer (step st rawLine) = []
      else True).
Proof.
  intros st.
  assert (Hex : exclusive st) by (apply scan_exclusive, exclusive_initial).
  destruct Hex as [Hb Hk]. split; [|split; [|split]].
  - destruct (inCodeBlock st); tauto.
  - exact Hb.
  - destruct (inCodeBlock st) eqn:Hc; [|exact I].
    destruct Hb as [Hl Ht]. unfold step. rewrite Hc.
    destruct (startsWith fence (trimEnd rawLine)); cbn.
    + destruct (flushCode_lists st) as (E1 & E2 & _). now rewrite E1, E2.
    + tauto.
  - unfold step. destruct (inCodeBlock st); [exact I|].
    destruct (startsWith fence (trimEnd rawLine)); [|exact I].
    cbn. split; [reflexivity|apply flushList_buffer].
Qed.

End ScanFacts.

Section FenceFacts.

Context {C : Type} `{CodeUnit C}.

Implicit Types (st : @state C) (rawLine line : list C).

Lemma flushCode_html st : html (flushCode st) = html st ++ codeBlockOf (codeBuffer st).
Proof.
  unfold flushCode, codeBlockOf. destruct (codeBuffer st); [|reflexivity].
  now rewrite app_nil_r.
Qed.

Lemma flushList_html st :
  html (flushList st) = html st ++ listBlockOf (listType st) (listBuffer st).
Proof.
  unfold flushList, listBlockOf. destruct (listBuffer st); [|reflexivity].
  now rewrite app_nil_r.
Qed.

Lemma pushItem_inCodeBlock k item st : inCodeBlock (pushItem k item st) = inCodeBlock st.
Proof.
  unfold pushItem. destruct (listType st) as [k'|]; [destruct (listKind_eqb k' k)|];
    cbn; now rewrite ?flushList_inCodeBlock.
Qed.

Lemma step_not_fence_inCodeBlock st rawLine :
  startsWith fence (trimEnd rawLine) = false ->
  inCodeBlock (step st rawLine) = inCodeBlock st.
Proof.
  intros Hf. unfold step. rewrite Hf.
  destruct (inCodeBlock st) eqn:Hc; [exact Hc|].
  destruct (trim (trimEnd rawLine)); [cbn; now rewrite flushList_inCodeBlock|].
  destruct (headingMatch (trimEnd rawLine)) as [[n g]|];
    [cbn; now rewrite flushList_inCodeBlock|].
  destruct (bulletMatch (trimEnd rawLine)); [now rewrite pushItem_inCodeBlock|].
  destruct (orderedMatch (trimEnd rawLine)); [now rewrite pushItem_inCodeBlock|].
  cbn. now rewrite flushList_inCodeBlock.
Qed.

(** C2, as the code has it.  A line toggles the code region exactly when
    the line without its trailing space starts with three backticks,
    whatever follows them.  Inside a code block such a line flushes the
    code buffer (one code block if a line was buffered, nothing otherwise)
    and leaves the block; outside it flushes the list buffer and enters
    the block.  The markup grows by the flushed block only: the fence line
    adds nothing. *)
Theorem fence_recognition st rawLine :
  (inCodeBlock (step st rawLine) <> inCodeBlock st
   <-> startsWith fence (trimEnd rawLine) = true)
  /\ (startsWith fence (trimEnd rawLine) = true ->
      step st rawLine
      = if inCodeBlock st
        then setInCodeBlock false (flushCode st)
        else setInCodeBlock true (flushList st))
  /\ html (flushCode st) = html st ++ codeBlockOf (codeBuffer st)
  /\ codeBuffer (flushCode st) = []
  /\ html (flushList st) = html st ++ listBlockOf (listType st) (listBuffer st)
  /\ listBuffer (flushList st) = [].
Proof.
  split; [|split; [|split; [|split; [|split]]]].
  - split.
    + intros Hne. destruct (startsWith fence (trimEnd rawLine)) eqn:Hf; [reflexivity|].
      exfalso. apply Hne. now apply step_not_fence_inCodeBlock.
    + intros Hf. unfold step. rewrite Hf. destruct (inCodeBlock st); cbn; discriminate.
  - intros Hf. unfold step. now rewrite Hf.
  - apply flushCode_html.
  - apply flushCode_buffer.
  - apply flushList_html.
  - apply flushList_buffer.
Qed.

End FenceFacts.

(** C2, as stated, fails: a fence line with a language tag toggles the code
    region though its trimmed content is not exactly three backticks. *)
Lemma fence_exact_counterexample :
  inCodeBlock (step initial (js "```js")) <> inCodeBlock (@initial N)
  /\ trimEnd (js "```js") <> js "```".
Proof. split; vm_compute; discriminate. Qed.

Lemma fence_recognition_witness :
  step initial (js "```js") = setInCodeBlock true (flushList (@initial N)).
Proof.
  destruct (fence_recognition initial (js "```js")) as (_ & Hstep & _).
  apply Hstep. vm_compute. reflexivity.
Defined.

(** ** The end of the input *)

(** C3, as stated, fails: the empty text has one line, a blank one, and the
    block pass answers it with a line break. *)
Lemma empty_input_counterexample :
  blockPass (js "") <> []
  /\ formatMessageText (js "") <> applyInlineFormatting (js "")
  /\ formatMessageText (js "") <> js "".
Proof. repeat split; vm_compute; discriminate. Qed.

(** C3, as the code has it.  The empty text renders as one line break, and
    the inline formatted text is returned exactly when the block pass
    produced nothing, as for a text that is a single fence line. *)
Theorem empty_input_and_fallback :
  formatMessageText (js "") = js "<br>"
  /\ blockPass (js "") = js "<br>"
  /\ (forall text : list N,
        blockPass text = [] -> formatMessageText text = applyInlineFormatting text)
  /\ (forall text : list N,
        blockPass text <> [] -> formatMessageText text = blockPass text).
Proof.
  split; [vm_compute; reflexivity|]. split; [vm_compute; reflexivity|].
  split; intros text Hb; unfold formatMessageText.
  - now rewrite Hb.
  - destruct (blockPass text); [contradiction|reflexivity].
Qed.

Lemma empty_input_and_fallback_witness :
  formatMessageText (js "```") = applyInlineFormatting (js "```")
  /\ formatMessageText (js "a") = blockPass (js "a").
Proof.
  destruct empty_input_and_fallback as (_ & _ & Hfall & Hblock). split.
  - apply Hfall. vm_compute. reflexivity.
  - apply Hblock. vm_compute. discriminate.
Defined.

Lemma blockPass_flushes {C : Type} `{CodeUnit C} (text : list C) :
  let st := scan initial (split text) in
  blockPass text
  = html st ++ listBlockOf (listType st) (listBuffer st) ++ codeBlockOf (codeBuffer st).
Proof.
  intros st. unfold blockPass, finish. fold st.
  now rewrite flushCode_html, flushList_html, flushList_codeBuffer, app_assoc.
Qed.

Lemma formatMessageText_block {C : Type} `{CodeUnit C} (text out : list C) :
  blockPass text = out -> out <> [] -> formatMessageText text = out.
Proof.
  intros <- Hne. unfold formatMessageText. destruct (blockPass text); [contradiction|reflexivity].
Qed.

(** C8.  The end of the input closes what is open: the block pass ends with
    the markup scanned so far, then the open list as one list block, then
    the buffered code lines as one code block, escaped once and joined by
    a line break.  With buffered code lines, or with an open list, this is
    what the renderer returns; an open fence without a buffered line adds
    nothing.  The renderer is a total function. *)
Theorem unterminated_closed :
  (forall text : list N,
     let st := scan initial (split text) in
     blockPass text
     = html st ++ listBlockOf (listType st) (listBuffer st) ++ codeBlockOf (codeBuffer st))
  /\ (forall text : list N,
        let st := scan initial (split text) in
        codeBuffer st <> [] ->
        inCodeBlock st = true
        /\ formatMessageText text
           = html st ++ js "<pre><code>" ++ escapeHtml (join (js nl) (codeBuffer st))
               ++ js "</code></pre>")
  /\ (forall text : list N,
        let st := scan initial (split text) in
        listBuffer st <> [] ->
        exists k, listType st = Some k
        /\ formatMessageText text
           = html st ++ js "<" ++ listTypeName (Some k) ++ js ">" ++ concat (listBuffer st)
               ++ js "</" ++ listTypeName (Some k) ++ js ">")
  /\ formatMessageText (js ("```" ++ nl ++ "line1" ++ nl ++ "<line2>")%string)
     = js ("<pre><code>line1" ++ nl ++ "&lt;line2&gt;</code></pre>")%string
  /\ formatMessageText (js ("- a" ++ nl ++ "- b")%string) = js "<ul><li>a</li><li>b</li></ul>"
  /\ formatMessageText (js ("1. a" ++ nl ++ "```" ++ nl ++ "b")%string)
     = js "<ol><li>a</li></ol><pre><code>b</code></pre>"
  /\ formatMessageText (js ("a" ++ nl ++ "```")%string) = js "<p>a</p>".
Proof.
  split; [intros text; apply blockPass_flushes|].
  split; [|split; [|repeat split; vm_compute; reflexivity]].
  - intros text st Hbuf.
    assert (Hex : exclusive st) by (apply scan_exclusive, exclusive_initial).
    destruct Hex as [Hb Hk].
    destruct (inCodeBlock st) eqn:Hc; [|contradiction].
    destruct Hb as [Hl Ht]. split; [reflexivity|].
    apply formatMessageText_block.
    + rewrite blockPass_flushes. fold st. rewrite Hl. cbn [listBlockOf app].
      unfold codeBlockOf. destruct (codeBuffer st); [contradiction|reflexivity].
    + intros Hnil. apply app_eq_nil in Hnil as [_ Hnil]. discriminate.
  - intros text st Hbuf.
    assert (Hex : exclusive st) by (apply scan_exclusive, exclusive_initial).
    destruct Hex as [Hb Hk].
    destruct (listType st) as [k|] eqn:Ht; [|exfalso; apply Hbuf, Hk; reflexivity].
    exists k. split; [reflexivity|].
    assert (Hcode : codeBuffer st = []).
    { destruct (inCodeBlock st); [destruct Hb; discriminate|exact Hb]. }
    apply formatMessageText_block.
    + rewrite blockPass_flushes. fold st. rewrite Hcode, Ht. cbn [codeBlockOf].
      rewrite app_nil_r. unfold listBlockOf.
      destruct (listBuffer st); [contradiction|reflexivity].
    + intros Hnil. apply app_eq_nil in Hnil as [_ Hnil]. discriminate.
Qed.

Lemma unterminated_closed_witness :
  formatMessageText (js ("```" ++ nl ++ "x")%string) = js "<pre><code>x</code></pre>"
  /\ formatMessageText (js "* y") = js "<ul><li>y</li></ul>".
Proof.
  destruct unterminated_closed as (_ & Hcode & Hlist & _). split.
  - destruct (Hcode (js ("```" ++ nl ++ "x")%string)) as [_ Heq].
    + vm_compute. discriminate.
    + rewrite Heq. vm_compute. reflexivity.
  - destruct (Hlist (js "* y")) as (k & Hk & Heq).
    + vm_compute. discriminate.
    + rewrite Heq. vm_compute in Hk. injection Hk as <-. vm_compute. reflexivity.
Defined.

(** ** Headings *)

Section LineFacts.

Context {C : Type} `{CodeUnit C}.

Lemma trimEnd_head (c : C) r :
  isSpace (code c) = false -> exists t, trimEnd (c :: r) = c :: t.
Proof.
  intros Hc. simpl. rewrite Hc. destruct (trimEnd r); eauto.
Qed.

Lemma trim_head (c : C) r :
  isSpace (code c) = false -> exists t, trim (c :: r) = c :: t.
Proof.
  intros Hc. unfold trim. destruct (trimEnd_head c r Hc) as [t ->].
  simpl. rewrite Hc. eauto.
Qed.

Lemma span_prefix (p : N -> bool) (a b : list C) :
  Forall (fun c => p (code c) = true) a ->
  match b with [] => True | c :: _ => p (code c) = false end ->
  span p (a ++ b) = (a, b).
Proof.
  intros Ha Hb. induction Ha as [|c a Hc Ha IH]; simpl.
  - destruct b as [|c b]; [reflexivity|]. simpl. now rewrite Hb.
  - now rewrite Hc, IH.
Qed.

Lemma spacesThenRest_spaces (w : C) (ws : list C) (c : C) (text : list C) :
  Forall (fun x => isSpace (code x) = true) (w :: ws) ->
  isSpace (code c) = false ->
  spacesThenRest (w :: ws ++ c :: text)
  = Some (fst (span (fun n => negb (isLineTerminator n)) (c :: text))).
Proof.
  intros Hws Hc. unfold spacesThenRest.
  change (w :: ws ++ c :: text) with ((w :: ws) ++ c :: text).
  now rewrite (span_prefix isSpace (w :: ws) (c :: text) Hws Hc).
Qed.

End LineFacts.

Lemma isSpace_not_hash n : isSpace n = true -> (n =? HASH)%N = false.
Proof.
  intros Hs. destruct (n =? HASH)%N eqn:E; [|reflexivity].
  apply N.eqb_eq in E. subst n. discriminate.
Qed.

Lemma headingMatch_hashes (h : nat) (ws : list N) (c : N) (text : list N) :
  1 <= h <= 4 -> ws <> [] ->
  Forall (fun x => isSpace x = true) ws ->
  isSpace c = false ->
  headingMatch (repeat HASH h ++ ws ++ c :: text)
  = Some (h, fst (span (fun n => negb (isLineTerminator n)) (c :: text))).
Proof.
  intros Hh Hne Hws Hc. destruct ws as [|w ws]; [contradiction|].
  pose proof (spacesThenRest_spaces (C := N) w ws c text Hws Hc) as Hrest.
  assert (Hw : (w =? HASH)%N = false) by (inversion Hws; now apply isSpace_not_hash).
  unfold headingMatch.
  destruct h as [|[|[|[|[|h]]]]]; try lia;
    cbn [repeat app firstSome startsWith skipn code plainUnit];
    rewrite ?N.eqb_refl, ?Hw; cbn [andb]; rewrite ?Hrest; reflexivity.
Qed.

(** C6.  Outside a code block a line of one to four hashes, at least one
    space and a text flushes the open list and appends a heading of level
    min(hashes + 2, 5) around the inline formatted text (the text up to
    its first line terminator, if it has one).  One hash gives level 3,
    four hashes level 5; five hashes are no heading. *)
Theorem heading_rule :
  (forall (st : state) (rawLine : list N) (h : nat) (ws : list N) (c : N) (text : list N),
     inCodeBlock st = false ->
     1 <= h <= 4 ->
     ws <> [] ->
     Forall (fun x => isSpace x = true) ws ->
     isSpace c = false ->
     trimEnd rawLine = repeat HASH h ++ ws ++ c :: text ->
     let level := Nat.min (h + 2) 5 in
     let content := fst (span (fun n => negb (isLineTerminator n)) (c :: text)) in
     step st rawLine
     = emit (js "<h" ++ digit level ++ js ">" ++ applyInlineFormatting content
               ++ js "</h" ++ digit level ++ js ">")
            (flushList st))
  /\ formatMessageText (js "# Title") = js "<h3>Title</h3>"
  /\ formatMessageText (js "## Title") = js "<h4>Title</h4>"
  /\ formatMessageText (js "### Title") = js "<h5>Title</h5>"
  /\ formatMessageText (js "#### Title") = js "<h5>Title</h5>"
  /\ formatMessageText (js "##### Title") = js "<p>##### Title</p>"
  /\ formatMessageText (js "# a **b**") = js "<h3>a <strong>b</strong></h3>"
  /\ formatMessageText (js ("- x" ++ nl ++ "# T")%string) = js "<ul><li>x</li></ul><h3>T</h3>".
Proof.
  split; [|repeat split; vm_compute; reflexivity].
  intros st rawLine h ws c text Hcode Hh Hne Hws Hc Hline level content.
  unfold step. rewrite Hline, Hcode.
  assert (Hfence : startsWith fence (repeat HASH h ++ ws ++ c :: text) = false).
  { destruct h as [|h]; [lia|]. reflexivity. }
  rewrite Hfence.
  assert (Hhash : isSpace (code HASH) = false) by reflexivity.
  destruct (trim_head HASH (repeat HASH (h - 1) ++ ws ++ c :: text) Hhash) as [t Ht].
  replace (repeat HASH h) with (HASH :: repeat HASH (h - 1))
    by (destruct h; [lia|]; simpl; now rewrite Nat.sub_0_r).
  cbn [app]. rewrite Ht.
  change (HASH :: repeat HASH (h - 1) ++ ws ++ c :: text)
    with ((HASH :: repeat HASH (h - 1)) ++ ws ++ c :: text).
  replace (HASH :: repeat HASH (h - 1)) with (repeat HASH h)
    by (destruct h; [lia|]; simpl; now rewrite Nat.sub_0_r).
  rewrite headingMatch_hashes by assumption.
  reflexivity.
Qed.

Lemma heading_rule_witness :
  step initial (js "###  Title ")
  = emit (js "<h5>Title</h5>") (flushList (@initial N)).
Proof.
  destruct heading_rule as [Hrule _].
  rewrite (Hrule initial (js "###  Title ") 3 (js "  ") 84%N (js "itle")).
  - vm_compute. reflexivity.
  - reflexivity.
  - lia.
  - discriminate.
  - repeat constructor.
  - reflexivity.
  - vm_compute. reflexivity.
Defined.

(** ** Lists *)

Section ListFacts.

Context {C : Type} `{CodeUnit C}.

Implicit Types (st : @state C) (rawLine line : list C).

Lemma step_itemLine st rawLine k g :
  inCodeBlock st = false -> itemLine rawLine = Some (k, g) ->
  step st rawLine = pushItem k g st.
Proof.
  unfold itemLine, step. intros -> Hitem.
  destruct (startsWith fence (trimEnd rawLine)); [discriminate|].
  destruct (trim (trimEnd rawLine)); [discriminate|].
  destruct (headingMatch (trimEnd rawLine)) as [[n g']|]; [discriminate|].
  destruct (bulletMatch (trimEnd rawLine)) as [g'|].
  - now injection Hitem as <- <-.
  - destruct (orderedMatch (trimEnd rawLine)) as [g'|]; [|discriminate].
    now injection Hitem as <- <-.
Qed.

Lemma listKind_eqb_refl k : listKind_eqb k k = true.
Proof. now destruct k. Qed.

Lemma listKind_eqb_neq k k' : k' <> k -> listKind_eqb k' k = false.
Proof. destruct k, k'; intros Hne; try reflexivity; now contradiction Hne. Qed.

(** An item of the kind of the open list joins it. *)
Lemma pushItem_same st k g :
  listType st = Some k ->
  pushItem k g st
  = {| html := html st; listBuffer := listBuffer st ++ [li g]; listType := Some k;
       inCodeBlock := inCodeBlock st; codeBuffer := codeBuffer st |}.
Proof.
  intros Ht. unfold pushItem. rewrite Ht, listKind_eqb_refl. cbn. now rewrite Ht.
Qed.

(** Any other item flushes the open list and starts a new one. *)
Lemma pushItem_other st k g :
  listType st <> Some k ->
  pushItem k g st
  = {| html := html (flushList st); listBuffer := [li g]; listType := Some k;
       inCodeBlock := inCodeBlock st; codeBuffer := codeBuffer st |}.
Proof.
  intros Ht. unfold pushItem.
  destruct (listType st) as [k'|] eqn:Et.
  - rewrite listKind_eqb_neq by congruence. cbn.
    now rewrite flushList_buffer, flushList_inCodeBlock, flushList_codeBuffer.
  - cbn. now rewrite flushList_buffer, flushList_inCodeBlock, flushList_codeBuffer.
Qed.

Lemma scan_items_same k : forall rawLines gs st,
  itemLines k rawLines gs ->
  inCodeBlock st = false -> listType st = Some k ->
  scan st rawLines
  = {| html := html st; listBuffer := listBuffer st ++ map li gs; listType := Some k;
       inCodeBlock := false; codeBuffer := codeBuffer st |}.
Proof.
  intros rawLines gs st Hitems. revert st.
  induction Hitems as [|rawLine g rawLines gs Hitem _ IH]; intros st Hc Ht.
  - cbn. rewrite app_nil_r. destruct st; cbn in *. now subst.
  - cbn [scan fold_left]. fold (scan (step st rawLine) rawLines).
    rewrite (step_itemLine st rawLine k g Hc Hitem), (pushItem_same st k g Ht), Hc.
    rewrite IH by reflexivity. cbn. now rewrite <- app_assoc.
Qed.

Lemma scan_items_other k rawLines gs st :
  itemLines k rawLines gs -> gs <> [] ->
  inCodeBlock st = false -> listType st <> Some k ->
  scan st rawLines
  = {| html := html (flushList st); listBuffer := map li gs; listType := Some k;
       inCodeBlock := false; codeBuffer := codeBuffer st |}.
Proof.
  intros Hitems Hne Hc Ht.
  destruct Hitems as [|rawLine g rawLines gs Hitem Hitems]; [contradiction|].
  cbn [scan fold_left]. fold (scan (step st rawLine) rawLines).
  rewrite (step_itemLine st rawLine k g Hc Hitem), (pushItem_other st k g Ht), Hc.
  now rewrite (scan_items_same k rawLines gs _ Hitems) by reflexivity.
Qed.

Lemma listBlockOf_items k (gs : list (list C)) :
  gs <> [] -> listBlockOf (Some k) (map li gs) = listBlock k gs.
Proof. destruct gs; [contradiction|reflexivity]. Qed.

Lemma listBlock_not_nil k (gs : list (list C)) : listBlock k gs <> [].
Proof. unfold listBlock. cbn. discriminate. Qed.

(** A text whose lines are all items of one kind is one list. *)
Lemma formatMessageText_one_list (text : list C) k gs :
  gs <> [] -> itemLines k (split text) gs ->
  formatMessageText text = listBlock k gs.
Proof.
  intros Hne Hitems. apply formatMessageText_block; [|apply listBlock_not_nil].
  rewrite blockPass_flushes.
  rewrite (scan_items_other k (split text) gs initial Hitems Hne eq_refl)
    by discriminate.
  cbn. now rewrite listBlockOf_items, app_nil_r.
Qed.

(** Items of one kind followed by items of the other kind are two lists. *)
Lemma formatMessageText_two_lists (text : list C) k1 k2 rawLines1 rawLines2 gs1 gs2 :
  split text = rawLines1 ++ rawLines2 -> k1 <> k2 ->
  gs1 <> [] -> gs2 <> [] ->
  itemLines k1 rawLines1 gs1 -> itemLines k2 rawLines2 gs2 ->
  formatMessageText text = listBlock k1 gs1 ++ listBlock k2 gs2.
Proof.
  intros Hsplit Hk Hne1 Hne2 Hitems1 Hitems2. apply formatMessageText_block.
  - rewrite blockPass_flushes, Hsplit, scan_app.
    rewrite (scan_items_other k1 rawLines1 gs1 initial Hitems1 Hne1 eq_refl)
      by discriminate.
    match goal with |- context [scan ?st1 rawLines2] =>
      rewrite (scan_items_other k2 rawLines2 gs2 st1 Hitems2 Hne2 eq_refl)
        by (cbn; congruence)
    end.
    cbn [html listType listBuffer codeBuffer initial codeBlockOf].
    rewrite flushList_html. cbn [html listType listBuffer initial].
    rewrite !listBlockOf_items by assumption. now rewrite app_nil_r.
  - intros Hnil. apply app_eq_nil in Hnil as [Hnil _]. now apply listBlock_not_nil in Hnil.
Qed.

End ListFacts.

(** C7.  A text whose lines are list items of one kind renders as one list
    block with the items in the order of the lines, and items of one kind
    followed by items of the other kind render as two list blocks, the
    first closed before the second opens. *)
Theorem list_grouping :
  (forall (text : list N) (k : listKind) (gs : list (list N)),
     gs <> [] -> itemLines k (split text) gs ->
     formatMessageText text = listBlock k gs)
  /\ (forall (text : list N) (k1 k2 : listKind) (rawLines1 rawLines2 gs1 gs2 : list (list N)),
        split text = rawLines1 ++ rawLines2 -> k1 <> k2 ->
        gs1 <> [] -> gs2 <> [] ->
        itemLines k1 rawLines1 gs1 -> itemLines k2 rawLines2 gs2 ->
        formatMessageText text = listBlock k1 gs1 ++ listBlock k2 gs2)
  /\ formatMessageText (js ("- a" ++ nl ++ "- b")%string) = js "<ul><li>a</li><li>b</li></ul>"
  /\ formatMessageText (js ("1. a" ++ nl ++ "2. b")%string) = js "<ol><li>a</li><li>b</li></ol>"
  /\ formatMessageText (js ("- a" ++ nl ++ "1. b")%string)
     = js "<ul><li>a</li></ul><ol><li>b</li></ol>"
  /\ listBlock ul [js "a"; js "b"] = js "<ul><li>a</li><li>b</li></ul>"
  /\ listBlock ul [js "a"] ++ listBlock ol [js "b"]
     = js "<ul><li>a</li></ul><ol><li>b</li></ol>".
Proof.
  split; [exact formatMessageText_one_list|].
  split; [exact formatMessageText_two_lists|].
  repeat split; vm_compute; reflexivity.
Qed.

Lemma list_grouping_witness :
  formatMessageText (js ("* a" ++ nl ++ "- b" ++ nl ++ "* c")%string)
  = listBlock ul [js "a"; js "b"; js "c"]
  /\ formatMessageText (js ("- a" ++ nl ++ "1. b")%string)
     = listBlock ul [js "a"] ++ listBlock ol [js "b"].
Proof.
  destruct list_grouping as (Hone & Htwo & _). split.
  - apply Hone; [discriminate|]. repeat constructor.
  - apply (Htwo _ ul ol [js "- a"] [js "1. b"]).
    + vm_compute. reflexivity.
    + discriminate.
    + discriminate.
    + discriminate.
    + repeat constructor.
    + repeat constructor.
Defined.

(** ** Markup *)

Section Tokens.

Context {C : Type} `{CodeUnit C}.

Lemma Tok_app L a b : Tok L a -> Tok L b -> Tok L (a ++ b).
Proof.
  intros Ha Hb. induction Ha as [|c s Hc Hs IH|t s Ht Hs IH].
  - exact Hb.
  - cbn. now constructor.
  - rewrite <- app_assoc. now constructor.
Qed.

Lemma Tok_mono L L' s : incl L L' -> Tok L s -> Tok L' s.
Proof.
  intros Hincl Hs. induction Hs as [|c s Hc Hs IH|t s Ht Hs IH].
  - constructor.
  - now constructor.
  - constructor; auto.
Qed.

Lemma Tok_lit_only L t : In t L -> Tok L (lit t).
Proof. intros Ht. rewrite <- (app_nil_r (lit t)). constructor; [assumption|constructor]. Qed.

Lemma Markup_app a b : Markup a -> Markup b -> Markup (a ++ b).
Proof.
  intros Ha Hb. induction Ha as [|c s Hc Hs IH|t s Ht Hs IH|u s Hu Hs IH].
  - exact Hb.
  - cbn. now constructor.
  - rewrite <- app_assoc. now constructor.
  - rewrite <- app_assoc. now constructor.
Qed.

Lemma Tok_Markup L s :
  incl L (entities ++ inlineTags ++ blockTags) -> Tok L s -> Markup s.
Proof.
  intros Hincl Hs. induction Hs as [|c s Hc Hs IH|t s Ht Hs IH].
  - constructor.
  - now constructor.
  - constructor; auto.
Qed.

Lemma Markup_tag t : In t (entities ++ inlineTags ++ blockTags) -> Markup (lit t).
Proof. intros Ht. rewrite <- (app_nil_r (lit t)). constructor; [assumption|constructor]. Qed.

(** *** Where a literal can be cut *)

Lemma avoids_In x L t : avoids x L = true -> In t L -> ~ In x (codes t).
Proof.
  unfold avoids. intros Hav Ht Hx.
  rewrite forallb_forall in Hav. specialize (Hav t Ht).
  apply negb_true_iff in Hav.
  assert (Hex : existsb (N.eqb x) (codes t) = true).
  { apply existsb_exists. exists x. split; [assumption|apply N.eqb_refl]. }
  congruence.
Qed.

(** A character that a literal does not hold lies behind the literal. *)
Lemma lit_cut (l : list N) : forall (s a : list C) c b,
  map gen l ++ s = a ++ c :: b -> ~ In (code c) l ->
  exists a', a = map gen l ++ a' /\ s = a' ++ c :: b.
Proof.
  induction l as [|x l IH]; intros s a c b Heq Hc.
  - exists a. now split.
  - destruct a as [|a0 a]; cbn in Heq.
    + injection Heq as <- _. rewrite code_gen in Hc. exfalso. apply Hc. now left.
    + injection Heq as <- Heq.
      destruct (IH s a c b Heq) as (a' & -> & ->).
      * intros Hin. apply Hc. now right.
      * exists a'. now split.
Qed.

Lemma Tok_split_at L x : avoids x L = true ->
  forall s, Tok L s -> forall a c b, s = a ++ c :: b -> code c = x ->
  Tok L a /\ Tok L (c :: b).
Proof.
  intros Hav s Hs. induction Hs as [|c0 s Hc0 Hs IH|t s Ht Hs IH]; intros a c b Heq Hc.
  - now destruct a.
  - destruct a as [|a0 a]; cbn in Heq.
    + injection Heq as <- <-. split; constructor; assumption.
    + injection Heq as <- ->. destruct (IH a c b eq_refl Hc) as [Ha Hb].
      split; [now constructor|assumption].
  - destruct (lit_cut (codes t) s a c b Heq) as (a' & -> & ->).
    + rewrite Hc. now apply (avoids_In x L).
    + destruct (IH a' c b eq_refl Hc) as [Ha Hb].
      split; [now constructor|assumption].
Qed.

Lemma Tok_uncons L x : avoids x L = true ->
  forall s, Tok L s -> forall c b, s = c :: b -> code c = x -> Tok L b.
Proof.
  intros Hav s Hs. induction Hs as [|c0 s Hc0 Hs IH|t s Ht Hs IH]; intros c b Heq Hc.
  - discriminate.
  - now injection Heq as <- <-.
  - destruct (lit_cut (codes t) s [] c b Heq) as (a' & Hnil & ->).
    + rewrite Hc. now apply (avoids_In x L).
    + symmetry in Hnil. apply app_eq_nil in Hnil as [_ ->]. now apply (IH c b).
Qed.

Lemma Tok_strip L (p r : list C) :
  Forall (fun c => avoids (code c) L = true) p -> Tok L (p ++ r) -> Tok L r.
Proof.
  intros Hp. induction Hp as [|c p Hc Hp IH]; intros Hs; [exact Hs|].
  apply IH. now apply (Tok_uncons L (code c) Hc _ Hs c (p ++ r)).
Qed.

(** A span between delimiters that no literal holds is a text of its own,
    and so is what follows the closing delimiter. *)
Lemma Tok_delimited L (p1 g p2 rest : list C) :
  Forall (fun c => avoids (code c) L = true) p1 ->
  Forall (fun c => avoids (code c) L = true) p2 ->
  p2 <> [] ->
  Tok L (p1 ++ g ++ p2 ++ rest) ->
  Tok L g /\ Tok L rest.
Proof.
  intros Hp1 Hp2 Hne Hs. apply (Tok_strip L p1) in Hs; [|assumption].
  destruct p2 as [|c p2]; [contradiction|].
  inversion Hp2 as [|? ? Hc Hp2']; subst.
  destruct (Tok_split_at L (code c) Hc _ Hs g c (p2 ++ rest) eq_refl eq_refl) as [Hg Hrest].
  split; [assumption|]. now apply (Tok_strip L (c :: p2)).
Qed.

End Tokens.

(** *** A substitution pass keeps the text well formed *)

Section Passes.

Context {C : Type} `{CodeUnit C}.

Lemma lit_avoids x L t :
  avoids x L = true -> In t L -> Forall (fun c : C => code c <> x) (lit t).
Proof.
  intros Hav Ht. pose proof (avoids_In x L t Hav Ht) as Hx.
  unfold lit. apply Forall_forall. intros c Hc.
  apply in_map_iff in Hc as (n & <- & Hn). rewrite code_gen. congruence.
Qed.

(** Where no match can start nothing is replaced. *)
Lemma replaceAll_prefix (m : @matcher C) repl x0 :
  (forall c s, code c <> x0 -> m (c :: s) = None) ->
  forall a s, Forall (fun c => code c <> x0) a ->
  replaceAll m repl (a ++ s) = a ++ replaceAll m repl s.
Proof.
  intros Hstart a s Ha. induction Ha as [|c a Hc Ha IH]; [reflexivity|].
  cbn [app]. rewrite replaceAll_nomatch by now apply Hstart. now rewrite IH.
Qed.

Section Pass.

Variables (m : @matcher C) (repl : list C -> list C).
Variables (L : list string) (x0 : N) (Q : list C -> Prop).

Hypothesis Hstart : forall c s, code c <> x0 -> m (c :: s) = None.
Hypothesis Hav : avoids x0 L = true.
Hypothesis Qnil : Q [].
Hypothesis Qchar : forall c y, isSpecial (code c) = false -> Q y -> Q (c :: y).
Hypothesis Qlit : forall t y, In t L -> Q y -> Q (lit t ++ y).
Hypothesis Hmatch : forall s g len,
  Tok L s -> m s = Some (g, len) ->
  exists n, len = S n /\ Tok L (skipn len s) /\ forall y, Q y -> Q (repl g ++ y).

Lemma pass_step s :
  Tok L s ->
  (forall r, length r < length s -> Tok L r -> Q (replaceAll m repl r)) ->
  Q (replaceAll m repl s).
Proof.
  intros Hs. induction Hs as [|c s Hc Hs IH|t s Ht Hs IH]; intros Hshort.
  - exact Qnil.
  - destruct (m (c :: s)) as [[g len]|] eqn:Em.
    + destruct (Hmatch (c :: s) g len) as (n & -> & Hrest & Hrepl);
        [now constructor|assumption|].
      rewrite (replaceAll_match m repl c s g n Em).
      apply Hrepl, Hshort; [|assumption].
      cbn [skipn length]. rewrite length_skipn. lia.
    + rewrite replaceAll_nomatch by assumption.
      apply Qchar; [assumption|]. apply Hshort; [cbn; lia|assumption].
  - rewrite (replaceAll_prefix m repl x0 Hstart) by now apply (lit_avoids x0 L).
    apply Qlit; [assumption|]. apply IH. intros r Hr. apply Hshort.
    rewrite length_app. lia.
Qed.

Lemma pass_preserves s : Tok L s -> Q (replaceAll m repl s).
Proof.
  remember (length s) as n eqn:Hn. revert s Hn.
  induction n as [n IH] using lt_wf_ind. intros s -> Hs.
  apply pass_step; [assumption|]. intros r Hr Hr'. now apply (IH (length r)).
Qed.

End Pass.

(** *** The shape of a match *)

Lemma startsWith_split (d : list N) : forall s : list C,
  startsWith d s = true ->
  exists p, s = p ++ skipn (length d) s /\ map code p = d.
Proof.
  induction d as [|x d IH]; intros s Hs.
  - exists []. now split.
  - destruct s as [|c s]; [discriminate|]. cbn in Hs.
    apply andb_true_iff in Hs as [Hc Hs]. apply N.eqb_eq in Hc.
    destruct (IH s Hs) as (p & Hp & Hd). exists (c :: p). cbn.
    split; [now rewrite <- Hp|now rewrite Hc, Hd].
Qed.

Lemma startsWith_app (d1 d2 : list N) : forall s : list C,
  startsWith (d1 ++ d2) s = startsWith d1 s && startsWith d2 (skipn (length d1) s).
Proof.
  induction d1 as [|x d1 IH]; intros s; [reflexivity|].
  destruct s as [|c s]; [reflexivity|]. cbn. now rewrite IH, andb_assoc.
Qed.

Lemma skipn_length_app (a b : list C) : skipn (length a) (a ++ b) = b.
Proof. induction a; [reflexivity|assumption]. Qed.

Lemma span_spec (p : N -> bool) : forall s : list C,
  s = fst (span p s) ++ snd (span p s)
  /\ Forall (fun c => p (code c) = true) (fst (span p s))
  /\ match snd (span p s) with [] => True | c :: _ => p (code c) = false end.
Proof.
  induction s as [|c s (IH1 & IH2 & IH3)]; [cbn; auto|].
  cbn. destruct (p (code c)) eqn:Ep.
  - destruct (span p s) as [a b]. cbn in *. repeat split.
    + now rewrite <- IH1.
    + now constructor.
    + exact IH3.
  - cbn. now rewrite Ep.
Qed.

Lemma codes_Forall (P : N -> Prop) (p : list C) :
  Forall P (map code p) -> Forall (fun c => P (code c)) p.
Proof.
  induction p as [|c p IH]; intros Hp; [constructor|].
  inversion Hp; subst. constructor; auto.
Qed.

Lemma matchDelimited_shape d (s g : list C) len :
  matchDelimited d s = Some (g, len) ->
  exists p1 p2 rest,
    s = p1 ++ g ++ p2 ++ rest /\ map code p1 = d /\ map code p2 = d
    /\ len = length (p1 ++ g ++ p2) /\ skipn len s = rest.
Proof.
  unfold matchDelimited. intros Hm.
  destruct (startsWith d s) eqn:Hd; [|discriminate].
  destruct (lazyUntil d (skipn (length d) s)) as [g'|] eqn:Hg; [|discriminate].
  injection Hm as <- <-.
  destruct (startsWith_split d s Hd) as (p1 & Hs & Hp1).
  destruct (lazyUntil_shortest d _ _ Hg) as (Hfirst & _ & Hclose & _).
  destruct (startsWith_split d _ Hclose) as (p2 & Hs2 & Hp2).
  set (rest := skipn (length d) (skipn (length g') (skipn (length d) s))) in *.
  assert (Heq : s = p1 ++ g' ++ p2 ++ rest).
  { rewrite Hs at 1. f_equal.
    rewrite <- (firstn_skipn (length g') (skipn (length d) s)) at 1.
    rewrite <- Hfirst. f_equal. exact Hs2. }
  exists p1, p2, rest. repeat split; try assumption.
  - rewrite !length_app, <- (length_map code p1), <- (length_map code p2), Hp1, Hp2. lia.
  - unfold rest. rewrite !skipn_skipn. f_equal; lia.
Qed.

Lemma matchCode_shape (s g : list C) len :
  matchCode s = Some (g, len) ->
  exists p1 p2 rest,
    s = p1 ++ g ++ p2 ++ rest /\ map code p1 = [BACKTICK] /\ map code p2 = [BACKTICK]
    /\ len = length (p1 ++ g ++ p2) /\ skipn len s = rest.
Proof.
  unfold matchCode. intros Hm.
  destruct (startsWith [BACKTICK] s) eqn:Hd; [|discriminate].
  destruct (startsWith_split _ s Hd) as (p1 & Hs & Hp1).
  pose proof (span_spec (fun n => negb (n =? BACKTICK)%N) (skipn 1 s)) as (Hspan & _ & _).
  destruct (span (fun n => negb (n =? BACKTICK)%N) (skipn 1 s)) as [g' r] eqn:Esp.
  cbn [fst snd] in Hspan.
  destruct g' as [|c g']; [discriminate|].
  destruct (startsWith [BACKTICK] r) eqn:Hr; [|discriminate].
  injection Hm as Hg Hlen. subst g.
  destruct (startsWith_split _ r Hr) as (p2 & Hr2 & Hp2).
  assert (Heq : s = p1 ++ (c :: g') ++ p2 ++ skipn 1 r).
  { rewrite Hs at 1. f_equal. cbn [length]. rewrite Hspan at 1. f_equal. exact Hr2. }
  assert (Hlen' : len = length (p1 ++ (c :: g') ++ p2)).
  { rewrite <- Hlen, !length_app, <- (length_map code p1), <- (length_map code p2), Hp1, Hp2.
    cbn. lia. }
  exists p1, p2, (skipn 1 r). repeat split; try assumption.
  rewrite Hlen', Heq at 1. rewrite !app_assoc. rewrite <- (app_assoc p1).
  apply skipn_length_app.
Qed.

End Passes.

Section UrlShape.

Context {C : Type} `{CodeUnit C}.

Lemma firstn_length_app (a b : list C) : firstn (length a) (a ++ b) = a.
Proof. induction a as [|x a IH]; [reflexivity|]. cbn. now rewrite IH. Qed.

Lemma afterScheme_shape (d : list N) (s u : list C) k len :
  length d = k -> startsWith d s = true ->
  Forall (fun x => x <> LT) d ->
  afterScheme s k = Some (u, len) ->
  exists rest n,
    s = u ++ rest /\ len = S n /\ skipn len s = rest
    /\ Forall (fun c => code c <> LT) u /\ stops rest.
Proof.
  intros Hk Hd Hlt. unfold afterScheme.
  destruct (startsWith (codes "://") (skipn k s)) eqn:Hsl; [|discriminate].
  assert (Hpre : startsWith (d ++ codes "://") s = true)
    by (now rewrite startsWith_app, Hd, Hk, Hsl).
  destruct (startsWith_split _ s Hpre) as (p & Hs & Hp).
  rewrite length_app, Hk in Hs. change (length (codes "://")) with 3 in Hs.
  pose proof (span_spec (fun n => negb (isSpace n || (n =? LT)%N)) (skipn (k + 3) s))
    as (Hspan & Hrun & Hstop).
  destruct (span (fun n => negb (isSpace n || (n =? LT)%N)) (skipn (k + 3) s)) as [g rest].
  cbn [fst snd] in *.
  destruct g as [|c g]; [discriminate|]. intros Hm. injection Hm as Hu Hl.
  assert (Hlen : length p = k + 3).
  { rewrite <- (length_map code p), Hp, length_app, Hk. reflexivity. }
  assert (Heq : s = (p ++ c :: g) ++ rest).
  { rewrite Hs at 1. rewrite Hspan. now rewrite <- app_assoc. }
  assert (Hl' : len = length (p ++ c :: g)).
  { rewrite <- Hl, length_app, Hlen. reflexivity. }
  assert (Hu' : u = p ++ c :: g).
  { rewrite <- Hu, Hl, Hl'. rewrite Heq at 1. apply firstn_length_app. }
  clear Hu. subst u. exists rest, (k + 3 + length g). repeat split.
  - exact Heq.
  - rewrite <- Hl. cbn. lia.
  - rewrite Hl'. rewrite Heq at 1. apply skipn_length_app.
  - apply Forall_app. split.
    + apply (codes_Forall (fun x => x <> LT)). rewrite Hp.
      apply Forall_app. split; [assumption|].
      repeat constructor; discriminate.
    + eapply Forall_impl; [|exact Hrun]. cbn. intros a Ha.
      apply negb_true_iff, orb_false_iff in Ha as [_ Ha]. now apply N.eqb_neq.
  - destruct rest as [|r rest]; [exact I|]. cbn. now apply negb_false_iff in Hstop.
Qed.

Lemma matchUrl_shape (s u : list C) len :
  matchUrl s = Some (u, len) ->
  exists rest n,
    s = u ++ rest /\ len = S n /\ skipn len s = rest
    /\ Forall (fun c => code c <> LT) u /\ stops rest.
Proof.
  unfold matchUrl. destruct (startsWith (codes "http") s) eqn:Hh; [|discriminate].
  destruct (startsWith (codes "s") (skipn 4 s)) eqn:Hs.
  - destruct (afterScheme s 5) as [r|] eqn:E5.
    + intros Hm. injection Hm as ->.
      apply (afterScheme_shape (codes "http" ++ codes "s") s u 5 len); auto.
      * now rewrite startsWith_app, Hh.
      * repeat constructor; discriminate.
    + apply (afterScheme_shape (codes "http") s u 4 len); auto.
      repeat constructor; discriminate.
  - apply (afterScheme_shape (codes "http") s u 4 len); auto.
    repeat constructor; discriminate.
Qed.

Lemma matchUrl_start (c : C) s : code c <> 104%N -> matchUrl (c :: s) = None.
Proof.
  intros Hc. unfold matchUrl. cbn. apply N.eqb_neq in Hc. now rewrite Hc.
Qed.

(** *** The text of a URL *)

Lemma inline_lit_cases t :
  In t (entities ++ inlineTags) ->
  (In t entities
   /\ forallb (fun x => negb (isSpace x || (x =? LT)%N)) (tl (codes t)) = true)
  \/ (exists l, codes t = LT :: l).
Proof.
  intros Ht. cbn in Ht.
  repeat (destruct Ht as [<-|Ht];
          [first [left; split; [cbn; tauto|reflexivity] | right; eexists; reflexivity]|]).
  contradiction.
Qed.

Lemma lit_app_cases (l : list N) : forall (s u rest : list C),
  map gen l ++ s = u ++ rest ->
  (exists u', u = map gen l ++ u' /\ s = u' ++ rest)
  \/ (exists l1 x l2, l = l1 ++ x :: l2 /\ u = map gen l1
        /\ rest = gen x :: map gen l2 ++ s).
Proof.
  induction l as [|x l IH]; intros s u rest Heq.
  - left. exists u. now split.
  - destruct u as [|c u]; cbn in Heq.
    + right. exists [], x, l. now subst rest.
    + injection Heq as <- Heq. destruct (IH s u rest Heq) as
        [(u' & -> & ->)|(l1 & y & l2 & -> & -> & ->)].
      * left. exists u'. now split.
      * right. exists (x :: l1), y, l2. now split.
Qed.

Lemma Tok_text_split : forall s : list C,
  Tok (entities ++ inlineTags) s ->
  forall u rest, s = u ++ rest ->
  Forall (fun c => code c <> LT) u -> stops rest ->
  Tok entities u /\ Tok (entities ++ inlineTags) rest.
Proof.
  intros s Hs. induction Hs as [|c s Hc Hs IH|t s Ht Hs IH]; intros u rest Heq Hu Hrest.
  - symmetry in Heq. apply app_eq_nil in Heq as [-> ->]. split; constructor.
  - destruct u as [|c' u]; cbn in Heq.
    + subst rest. split; constructor; assumption.
    + injection Heq as <- ->. inversion Hu; subst.
      destruct (IH u rest eq_refl) as [Hu' Hr]; try assumption.
      split; [now constructor|assumption].
  - destruct (lit_app_cases (codes t) s u rest Heq)
      as [(u' & -> & ->)|(l1 & x & l2 & Ht' & -> & ->)].
    + apply Forall_app in Hu as [Hlit Hu'].
      destruct (IH u' rest eq_refl Hu' Hrest) as [Hu'' Hr].
      split; [|assumption].
      destruct (inline_lit_cases t Ht) as [[Hent _]|(l & Hl)].
      * now constructor.
      * unfold lit in Hlit. rewrite Hl in Hlit. inversion Hlit as [|? ? Hx _]; subst.
        rewrite code_gen in Hx. now contradiction Hx.
    + destruct l1 as [|y l1].
      * split; [constructor|].
        replace (gen x :: map gen l2 ++ s) with (lit t ++ s)
          by (unfold lit; now rewrite Ht').
        now constructor.
      * exfalso. destruct (inline_lit_cases t Ht) as [[_ Htail]|(l & Hl)].
        -- rewrite Ht' in Htail. cbn [tl app] in Htail.
           rewrite forallb_app in Htail. apply andb_true_iff in Htail as [_ Htail].
           cbn in Htail. apply andb_true_iff in Htail as [Htail _].
           cbn in Hrest. rewrite code_gen in Hrest.
           apply negb_true_iff in Htail. congruence.
        -- rewrite Ht' in Hl. injection Hl as -> _.
           inversion Hu as [|? ? Hx _]; subst. rewrite code_gen in Hx.
           now contradiction Hx.
Qed.

End UrlShape.

(** *** The inline formatter writes markup *)

Section InlineMarkup.

Context {C : Type} `{CodeUnit C}.

Lemma escapeHtml_Tok (s : list C) : Tok entities (escapeHtml s).
Proof.
  rewrite escapeHtml_flat_map. induction s as [|c s IH]; [constructor|].
  cbn [flat_map]. unfold escapeChar at 1.
  destruct (code c =? AMP)%N eqn:Ea; [constructor; [cbn; tauto|assumption]|].
  destruct (code c =? LT)%N eqn:El; [constructor; [cbn; tauto|assumption]|].
  destruct (code c =? GT)%N eqn:Eg; [constructor; [cbn; tauto|assumption]|].
  cbn [app]. constructor; [|assumption]. unfold isSpecial. now rewrite Ea, El, Eg.
Qed.

Lemma avoids_codes (d : list N) L (p : list C) :
  map code p = d -> forallb (fun x => avoids x L) d = true ->
  Forall (fun c => avoids (code c) L = true) p.
Proof.
  intros <- Hd. rewrite forallb_forall in Hd. apply Forall_forall.
  intros c Hc. apply Hd. now apply in_map.
Qed.

Lemma delimited_match L (opening closing : string) (d : list N) (s g : list C) len :
  (exists p1 p2 rest,
     s = p1 ++ g ++ p2 ++ rest /\ map code p1 = d /\ map code p2 = d
     /\ len = length (p1 ++ g ++ p2) /\ skipn len s = rest) ->
  d <> [] -> forallb (fun x => avoids x L) d = true ->
  In opening L -> In closing L -> Tok L s ->
  exists n, len = S n /\ Tok L (skipn len s)
    /\ forall y, Tok L y -> Tok L ((lit opening ++ g ++ lit closing) ++ y).
Proof.
  intros (p1 & p2 & rest & -> & Hp1 & Hp2 & -> & Hskip) Hd Hav Ho Hc Hs.
  assert (Hne : p2 <> []) by (intros ->; now apply Hd).
  destruct (Tok_delimited L p1 g p2 rest) as [Hg Hrest]; try assumption;
    try (eapply avoids_codes; eassumption).
  exists (pred (length (p1 ++ g ++ p2))). repeat split.
  - destruct p1; [now subst d|reflexivity].
  - now rewrite Hskip.
  - intros y Hy. rewrite <- !app_assoc. constructor; [assumption|].
    apply Tok_app; [assumption|]. now constructor.
Qed.

Lemma matchDelimited_start x ds (c : C) s :
  code c <> x -> matchDelimited (x :: ds) (c :: s) = None.
Proof.
  intros Hc. unfold matchDelimited. cbn. apply N.eqb_neq in Hc. now rewrite Hc.
Qed.

Lemma delimitedPass_Tok x ds (opening closing : string) (s : list C) :
  let L := entities ++ inlineTags in
  forallb (fun y => avoids y L) (x :: ds) = true ->
  In opening L -> In closing L -> Tok L s ->
  Tok L (replaceAll (matchDelimited (x :: ds))
           (fun g => lit opening ++ g ++ lit closing) s).
Proof.
  intros L Hav Ho Hc Hs.
  apply (pass_preserves _ _ L x (Tok L)); try assumption.
  - intros c r. apply matchDelimited_start.
  - cbn [forallb] in Hav. now apply andb_true_iff in Hav as [Hav _].
  - constructor.
  - intros c y. now constructor.
  - intros t y. now constructor.
  - intros r g len Hr Hm. apply (delimited_match L opening closing (x :: ds)); auto.
    + now apply matchDelimited_shape.
    + discriminate.
Qed.

Lemma boldPass_Tok (s : list C) :
  Tok (entities ++ inlineTags) s -> Tok (entities ++ inlineTags) (boldPass s).
Proof. apply delimitedPass_Tok; [reflexivity|cbn; tauto|cbn; tauto]. Qed.

Lemma italicPass_Tok (s : list C) :
  Tok (entities ++ inlineTags) s -> Tok (entities ++ inlineTags) (italicPass s).
Proof. apply delimitedPass_Tok; [reflexivity|cbn; tauto|cbn; tauto]. Qed.

Lemma codePass_Tok (s : list C) :
  Tok (entities ++ inlineTags) s -> Tok (entities ++ inlineTags) (codePass s).
Proof.
  intros Hs. set (L := entities ++ inlineTags) in *.
  apply (pass_preserves _ _ L BACKTICK (Tok L)); try assumption.
  - intros c r Hc. unfold matchCode. cbn. apply N.eqb_neq in Hc. now rewrite Hc.
  - reflexivity.
  - constructor.
  - intros c y. now constructor.
  - intros t y. now constructor.
  - intros r g len Hr Hm. apply (delimited_match L "<code>" "</code>" [BACKTICK]); auto.
    + now apply matchCode_shape.
    + discriminate.
    + cbn; tauto.
    + cbn; tauto.
Qed.

Lemma linkPass_Markup (s : list C) :
  Tok (entities ++ inlineTags) s -> Markup (linkPass s).
Proof.
  intros Hs. set (L := entities ++ inlineTags) in *.
  apply (pass_preserves _ _ L 104%N Markup); try assumption.
  - intros c r. apply matchUrl_start.
  - reflexivity.
  - constructor.
  - intros c y. now constructor.
  - intros t y Ht Hy. constructor; [|assumption].
    unfold L in Ht. rewrite app_assoc. apply in_or_app. now left.
  - intros r u len Hr Hm.
    destruct (matchUrl_shape r u len Hm) as (rest & n & -> & -> & Hskip & Hu & Hrest).
    destruct (Tok_text_split _ Hr u rest eq_refl Hu Hrest) as [Htext Htail].
    exists n. split; [reflexivity|]. split; [now rewrite Hskip|].
    intros y Hy. rewrite <- !app_assoc. constructor; [assumption|].
    apply Markup_app.
    + apply (Tok_Markup entities); [|assumption].
      intros t Ht. apply in_or_app. now left.
    + constructor; [cbn; tauto|assumption].
Qed.

Lemma applyInlineFormatting_Markup (str : list C) : Markup (applyInlineFormatting str).
Proof.
  unfold applyInlineFormatting.
  apply linkPass_Markup, codePass_Tok, italicPass_Tok, boldPass_Tok.
  apply (Tok_mono entities); [|apply escapeHtml_Tok].
  intros t Ht. apply in_or_app. now left.
Qed.

End InlineMarkup.

(** *** The line scan writes markup *)

Section BlockMarkup.

Context {C : Type} `{CodeUnit C}.

Implicit Types (st : @state C) (rawLine line : list C).

Lemma Markup_concat (xs : list (list C)) : Forall Markup xs -> Markup (concat xs).
Proof.
  intros Hxs. induction Hxs as [|x xs Hx Hxs IH]; [constructor|].
  cbn. now apply Markup_app.
Qed.

Lemma Markup_wrap (opening closing : string) (x : list C) :
  In opening (entities ++ inlineTags ++ blockTags) ->
  In closing (entities ++ inlineTags ++ blockTags) ->
  Markup x -> Markup (lit opening ++ x ++ lit closing).
Proof.
  intros Ho Hc Hx. constructor; [assumption|].
  apply Markup_app; [assumption|now apply Markup_tag].
Qed.

Lemma listBlockOf_Markup k (buffer : list (list C)) :
  Forall Markup buffer -> Markup (listBlockOf (Some k) buffer).
Proof.
  intros Hb. unfold listBlockOf. destruct buffer as [|x xs]; [constructor|].
  destruct k.
  - apply (Markup_wrap "<ul>" "</ul>"); [cbn; tauto|cbn; tauto|now apply Markup_concat].
  - apply (Markup_wrap "<ol>" "</ol>"); [cbn; tauto|cbn; tauto|now apply Markup_concat].
Qed.

Lemma codeBlockOf_Markup (buffer : list (list C)) : Markup (codeBlockOf buffer).
Proof.
  unfold codeBlockOf. destruct buffer as [|x xs]; [constructor|].
  change (lit "<pre><code>" ++ escapeHtml (join (lit nl) (x :: xs)) ++ lit "</code></pre>")
    with (lit "<pre>" ++ lit "<code>" ++ escapeHtml (join (lit nl) (x :: xs))
            ++ lit "</code>" ++ lit "</pre>").
  constructor; [cbn; tauto|]. constructor; [cbn; tauto|].
  apply Markup_app.
  - apply (Tok_Markup entities); [|apply escapeHtml_Tok].
    intros t Ht. apply in_or_app. now left.
  - constructor; [cbn; tauto|]. apply Markup_tag. cbn; tauto.
Qed.

Lemma okMarkup_flushList st : exclusive st -> okMarkup st -> okMarkup (flushList st).
Proof.
  intros [_ Hk] [Hh Hl]. split; [|rewrite flushList_buffer; constructor].
  rewrite flushList_html. apply Markup_app; [assumption|].
  destruct (listType st) as [k|] eqn:Et.
  - now apply listBlockOf_Markup.
  - destruct Hk as [_ Hk]. rewrite (Hk eq_refl). constructor.
Qed.

Lemma okMarkup_flushCode st : okMarkup st -> okMarkup (flushCode st).
Proof.
  intros [Hh Hl]. split.
  - rewrite flushCode_html. apply Markup_app; [assumption|apply codeBlockOf_Markup].
  - destruct (flushCode_lists st) as (-> & _). assumption.
Qed.

Lemma okMarkup_emit st (x : list C) : Markup x -> okMarkup st -> okMarkup (emit x st).
Proof. intros Hx [Hh Hl]. split; [now apply Markup_app|assumption]. Qed.

Lemma li_Markup (g : list C) : Markup (li g).
Proof.
  apply (Markup_wrap "<li>" "</li>"); [cbn; tauto|cbn; tauto|].
  apply applyInlineFormatting_Markup.
Qed.

Lemma okMarkup_pushItem st k g : exclusive st -> okMarkup st -> okMarkup (pushItem k g st).
Proof.
  intros Hex Hok. destruct (okMarkup_flushList st Hex Hok) as [Hfh Hfl].
  destruct Hok as [Hh Hl]. unfold pushItem.
  destruct (listType st) as [k'|]; [destruct (listKind_eqb k' k)|]; split;
    cbn [html listBuffer]; try assumption; apply Forall_app; (split; [assumption|]);
    (constructor; [apply (li_Markup g)|constructor]).
Qed.

Lemma headingMatch_count line n g :
  headingMatch line = Some (n, g) -> n = 4 \/ n = 3 \/ n = 2 \/ n = 1.
Proof.
  unfold headingMatch. cbn [firstSome].
  repeat match goal with
  | |- context [if ?b then _ else _] => destruct b
  | |- context [option_map _ ?o] => destruct o; cbn [option_map]
  end; intros Hm; try discriminate; injection Hm as <- _; tauto.
Qed.

Lemma heading_Markup n (x : list C) :
  n = 4 \/ n = 3 \/ n = 2 \/ n = 1 -> Markup x ->
  Markup (lit "<h" ++ digit (headingLevel n) ++ lit ">" ++ x
            ++ lit "</h" ++ digit (headingLevel n) ++ lit ">").
Proof.
  intros Hn Hx. destruct Hn as [-> | [-> | [-> | ->]]].
  - apply (Markup_wrap "<h5>" "</h5>" x); [cbn; tauto|cbn; tauto|assumption].
  - apply (Markup_wrap "<h5>" "</h5>" x); [cbn; tauto|cbn; tauto|assumption].
  - apply (Markup_wrap "<h4>" "</h4>" x); [cbn; tauto|cbn; tauto|assumption].
  - apply (Markup_wrap "<h3>" "</h3>" x); [cbn; tauto|cbn; tauto|assumption].
Qed.

Lemma okMarkup_step st rawLine : exclusive st -> okMarkup st -> okMarkup (step st rawLine).
Proof.
  intros Hex Hok. unfold step.
  destruct (startsWith fence (trimEnd rawLine)).
  - destruct (inCodeBlock st).
    + apply okMarkup_flushCode in Hok. exact Hok.
    + apply okMarkup_flushList in Hok; [exact Hok|assumption].
  - destruct (inCodeBlock st); [exact Hok|].
    destruct (trim (trimEnd rawLine)).
    { apply okMarkup_emit; [apply Markup_tag; cbn; tauto|now apply okMarkup_flushList]. }
    destruct (headingMatch (trimEnd rawLine)) as [[n g]|] eqn:Eh.
    { apply okMarkup_emit; [|now apply okMarkup_flushList].
      apply heading_Markup; [now apply (headingMatch_count _ _ _ Eh)|].
      apply applyInlineFormatting_Markup. }
    destruct (bulletMatch (trimEnd rawLine)); [now apply okMarkup_pushItem|].
    destruct (orderedMatch (trimEnd rawLine)); [now apply okMarkup_pushItem|].
    apply okMarkup_emit; [|now apply okMarkup_flushList].
    apply (Markup_wrap "<p>" "</p>"); [cbn; tauto|cbn; tauto|].
    apply applyInlineFormatting_Markup.
Qed.

Lemma okMarkup_scan : forall lines st,
  exclusive st -> okMarkup st -> okMarkup (scan st lines).
Proof.
  induction lines as [|l lines IH]; intros st Hex Hok; [exact Hok|].
  apply IH; [now apply step_exclusive|now apply okMarkup_step].
Qed.

Lemma blockPass_Markup (text : list C) : Markup (blockPass text).
Proof.
  unfold blockPass, finish.
  assert (Hex : exclusive (scan initial (split text)))
    by apply scan_exclusive, exclusive_initial.
  assert (Hok : okMarkup (scan initial (split text))).
  { apply okMarkup_scan; [apply exclusive_initial|]. split; constructor. }
  apply okMarkup_flushCode, okMarkup_flushList; assumption.
Qed.

(** Whatever the text, the renderer returns markup. *)
Lemma formatMessageText_Markup (text : list C) : Markup (formatMessageText text).
Proof.
  unfold formatMessageText. pose proof (blockPass_Markup text) as Hb.
  destruct (blockPass text); [apply applyInlineFormatting_Markup|exact Hb].
Qed.

End BlockMarkup.

(** In a tagged text that is markup, every ampersand, less-than and
    greater-than sign was written by the renderer. *)
Lemma Tok_generated L (s : list tagged) :
  Tok L s -> Forall (fun c : tagged => isSpecial (code c) = true -> snd c = Generated) s.
Proof.
  intros Hs. induction Hs as [|c s Hc Hs IH|t s Ht Hs IH].
  - constructor.
  - constructor; [intros Hsp; rewrite Hc in Hsp; discriminate|assumption].
  - apply Forall_app. split; [|assumption].
    unfold lit. apply Forall_forall. intros c Hc.
    now apply in_map_iff in Hc as (n & <- & _).
Qed.

Lemma lit_generated (t : string) (P : tagged -> Prop) :
  (forall n, P (n, Generated)) -> Forall P (lit t).
Proof.
  intros HP. unfold lit. apply Forall_forall. intros c Hc.
  apply in_map_iff in Hc as (n & <- & _). apply HP.
Qed.

Lemma Markup_generated (s : list tagged) :
  Markup s -> Forall (fun c : tagged => isSpecial (code c) = true -> snd c = Generated) s.
Proof.
  intros Hs. induction Hs as [|c s Hc Hs IH|t s Ht Hs IH|u s Hu Hs IH].
  - constructor.
  - constructor; [intros Hsp; rewrite Hc in Hsp; discriminate|assumption].
  - apply Forall_app. split; [|assumption]. now apply lit_generated.
  - unfold anchorOpen. rewrite <- !app_assoc.
    repeat (apply Forall_app; split); try (now apply lit_generated); try assumption.
    now apply (Tok_generated entities).
Qed.

(** ** The origin of a character does not change the result

    The renderer over any character type, with the characters replaced by
    their code units, is the renderer over code units. *)

Section Erasure.

Context {C : Type} `{CodeUnit C}.

Lemma erase_lit t : erase (lit t) = lit t.
Proof.
  unfold erase, lit. rewrite map_map. apply map_ext. intros n. apply code_gen.
Qed.

Lemma erase_app (a b : list C) : erase (a ++ b) = erase a ++ erase b.
Proof. apply map_app. Qed.

Lemma erase_cons c (s : list C) : erase (c :: s) = code c :: erase s.
Proof. reflexivity. Qed.


Lemma startsWith_erase d : forall s : list C, startsWith d (erase s) = startsWith d s.
Proof.
  induction d as [|x d IH]; intros s; [reflexivity|].
  destruct s as [|c s]; [reflexivity|]. rewrite erase_cons. cbn. now rewrite IH.
Qed.

Lemma span_erase p : forall s : list C,
  span p (erase s) = (erase (fst (span p s)), erase (snd (span p s))).
Proof.
  induction s as [|c s IH]; [reflexivity|].
  rewrite erase_cons. cbn. destruct (p (code c)); [|reflexivity].
  rewrite IH. now destruct (span p s).
Qed.

Lemma dropWhile_erase p : forall s : list C,
  dropWhile p (erase s) = erase (dropWhile p s).
Proof.
  induction s as [|c s IH]; [reflexivity|].
  rewrite erase_cons. cbn. now destruct (p (code c)).
Qed.

Lemma trimEnd_erase : forall s : list C, trimEnd (erase s) = erase (trimEnd s).
Proof.
  induction s as [|c s IH]; [reflexivity|].
  rewrite erase_cons. cbn. rewrite IH. destruct (trimEnd s); [|reflexivity].
  now destruct (isSpace (code c)).
Qed.

Lemma trim_erase (s : list C) : trim (erase s) = erase (trim s).
Proof. unfold trim. now rewrite trimEnd_erase, dropWhile_erase. Qed.

Lemma split_erase : forall s : list C, split (erase s) = map erase (split s).
Proof.
  induction s as [|c s IH]; [reflexivity|].
  rewrite erase_cons. cbn. destruct (code c =? NEWLINE)%N; cbn; [now rewrite IH|].
  rewrite IH. now destruct (split s).
Qed.

Lemma join_erase (sep : list C) : forall xs,
  join (erase sep) (map erase xs) = erase (join sep xs).
Proof.
  induction xs as [|x xs IH]; [reflexivity|].
  destruct xs as [|y xs]; [reflexivity|].
  change (join (erase sep) (map erase (x :: y :: xs)))
    with (erase x ++ erase sep ++ join (erase sep) (map erase (y :: xs))).
  rewrite IH. change (join sep (x :: y :: xs)) with (x ++ sep ++ join sep (y :: xs)).
  now rewrite !erase_app.
Qed.

Lemma erase_skipn k (s : list C) : skipn k (erase s) = erase (skipn k s).
Proof. unfold erase. now rewrite skipn_map. Qed.

Lemma erase_firstn k (s : list C) : firstn k (erase s) = erase (firstn k s).
Proof. unfold erase. now rewrite firstn_map. Qed.

Lemma erase_length (s : list C) : length (erase s) = length s.
Proof. apply length_map. Qed.

(** *** Matchers *)

Lemma matchChar_erase x (s : list C) : matchChar x (erase s) = eraseMatch (matchChar x s).
Proof.
  destruct s as [|c s]; [reflexivity|]. rewrite erase_cons. cbn.
  now destruct (code c =? x)%N.
Qed.

Lemma lazyUntil_erase d : forall s : list C,
  lazyUntil d (erase s) = option_map erase (lazyUntil d s).
Proof.
  induction s as [|c s IH]; [reflexivity|].
  rewrite erase_cons. cbn. destruct (isLineTerminator (code c)); [reflexivity|].
  rewrite startsWith_erase.
  destruct (startsWith d s); [reflexivity|].
  rewrite IH. now destruct (lazyUntil d s).
Qed.

Lemma matchDelimited_erase d (s : list C) :
  matchDelimited d (erase s) = eraseMatch (matchDelimited d s).
Proof.
  unfold matchDelimited. rewrite startsWith_erase.
  destruct (startsWith d s); [|reflexivity].
  rewrite erase_skipn, lazyUntil_erase.
  destruct (lazyUntil d (skipn (length d) s)) as [g|]; [|reflexivity].
  cbn. now rewrite erase_length.
Qed.

Lemma matchCode_erase (s : list C) : matchCode (erase s) = eraseMatch (matchCode s).
Proof.
  unfold matchCode. rewrite startsWith_erase.
  destruct (startsWith [BACKTICK] s); [|reflexivity].
  rewrite erase_skipn, span_erase.
  destruct (span (fun n => negb (n =? BACKTICK)%N) (skipn 1 s)) as [g r].
  cbn [fst snd]. destruct g as [|c g]; [reflexivity|].
  rewrite erase_cons.
  rewrite startsWith_erase. destruct (startsWith [BACKTICK] r); [|reflexivity].
  cbn. now rewrite erase_length.
Qed.

Lemma afterScheme_erase (s : list C) k :
  afterScheme (erase s) k = eraseMatch (afterScheme s k).
Proof.
  unfold afterScheme. rewrite erase_skipn, startsWith_erase.
  destruct (startsWith (codes "://") (skipn k s)); [|reflexivity].
  rewrite erase_skipn, span_erase. cbn [fst].
  destruct (fst (span (fun n => negb (isSpace n || (n =? LT)%N)) (skipn (k + 3) s)))
    as [|c g]; [reflexivity|].
  rewrite erase_cons.
  cbn [length eraseMatch option_map fst snd]. now rewrite erase_length, erase_firstn.
Qed.

Lemma matchUrl_erase (s : list C) : matchUrl (erase s) = eraseMatch (matchUrl s).
Proof.
  unfold matchUrl. rewrite startsWith_erase.
  destruct (startsWith (codes "http") s); [|reflexivity].
  rewrite erase_skipn, startsWith_erase, !afterScheme_erase.
  destruct (startsWith (codes "s") (skipn 4 s)); [|reflexivity].
  now destruct (afterScheme s 5).
Qed.

Lemma replaceFrom_erase (m : @matcher C) (m' : @matcher N) repl repl' :
  (forall s, m' (erase s) = eraseMatch (m s)) ->
  (forall g, repl' (erase g) = erase (repl g)) ->
  forall s k, replaceFrom m' repl' k (erase s) = erase (replaceFrom m repl k s).
Proof.
  intros Hm Hrepl. induction s as [|c s IH]; intros k; [reflexivity|].
  rewrite erase_cons. cbn [replaceFrom]. destruct k as [|k]; [|apply IH].
  rewrite <- erase_cons, Hm.
  destruct (m (c :: s)) as [[g len]|]; cbn [eraseMatch option_map fst snd].
  - rewrite erase_app, <- Hrepl. f_equal. apply IH.
  - rewrite !erase_cons. f_equal. apply IH.
Qed.

Lemma replaceAll_erase (m : @matcher C) (m' : @matcher N) repl repl' (s : list C) :
  (forall s, m' (erase s) = eraseMatch (m s)) ->
  (forall g, repl' (erase g) = erase (repl g)) ->
  replaceAll m' repl' (erase s) = erase (replaceAll m repl s).
Proof. intros Hm Hrepl. now apply replaceFrom_erase. Qed.

Lemma escapeHtml_erase (s : list C) : escapeHtml (erase s) = erase (escapeHtml s).
Proof.
  unfold escapeHtml.
  rewrite (replaceAll_erase (matchChar AMP) (matchChar AMP)
             (fun _ => lit "&amp;") (fun _ => lit "&amp;") s (matchChar_erase AMP)
             (fun _ => eq_sym (erase_lit "&amp;"))).
  rewrite (replaceAll_erase (matchChar LT) (matchChar LT)
             (fun _ => lit "&lt;") (fun _ => lit "&lt;") _ (matchChar_erase LT)
             (fun _ => eq_sym (erase_lit "&lt;"))).
  now rewrite (replaceAll_erase (matchChar GT) (matchChar GT)
             (fun _ => lit "&gt;") (fun _ => lit "&gt;") _ (matchChar_erase GT)
             (fun _ => eq_sym (erase_lit "&gt;"))).
Qed.

Lemma boldPass_erase (s : list C) : boldPass (erase s) = erase (boldPass s).
Proof.
  unfold boldPass. apply replaceAll_erase; [apply matchDelimited_erase|].
  intros g. now rewrite !erase_app, !erase_lit.
Qed.

Lemma italicPass_erase (s : list C) : italicPass (erase s) = erase (italicPass s).
Proof.
  unfold italicPass. apply replaceAll_erase; [apply matchDelimited_erase|].
  intros g. now rewrite !erase_app, !erase_lit.
Qed.

Lemma codePass_erase (s : list C) : codePass (erase s) = erase (codePass s).
Proof.
  unfold codePass. apply replaceAll_erase; [apply matchCode_erase|].
  intros g. now rewrite !erase_app, !erase_lit.
Qed.

Lemma linkPass_erase (s : list C) : linkPass (erase s) = erase (linkPass s).
Proof.
  unfold linkPass. apply replaceAll_erase; [apply matchUrl_erase|].
  intros g. unfold anchorOpen. now rewrite !erase_app, !erase_lit.
Qed.

Lemma applyInlineFormatting_erase (s : list C) :
  applyInlineFormatting (erase s) = erase (applyInlineFormatting s).
Proof.
  unfold applyInlineFormatting.
  now rewrite escapeHtml_erase, boldPass_erase, italicPass_erase, codePass_erase,
    linkPass_erase.
Qed.

End Erasure.


Section StateErasure.

Context {C : Type} `{CodeUnit C}.

Implicit Types (st : @state C) (rawLine line : list C).

Lemma listTypeName_erase t : erase (listTypeName (C := C) t) = listTypeName t.
Proof. destruct t as [[|]|]; apply erase_lit. Qed.

Lemma concat_erase (xs : list (list C)) : erase (concat xs) = concat (map erase xs).
Proof. unfold erase. apply concat_map. Qed.

Lemma digit_erase n : erase (digit (C := C) n) = digit n.
Proof. unfold digit. rewrite erase_cons. now rewrite code_gen. Qed.

Lemma flushList_erase st : flushList (eraseState st) = eraseState (flushList st).
Proof.
  unfold flushList. cbn [eraseState listBuffer].
  destruct (listBuffer st) as [|x xs] eqn:E; cbn [map].
  - unfold eraseState. now rewrite E.
  - unfold eraseState. cbn [html listBuffer listType inCodeBlock codeBuffer map].
    f_equal. now rewrite !erase_app, !erase_lit, !listTypeName_erase, concat_erase.
Qed.

Lemma flushCode_erase st : flushCode (eraseState st) = eraseState (flushCode st).
Proof.
  unfold flushCode. cbn [eraseState codeBuffer].
  destruct (codeBuffer st) as [|x xs] eqn:E; cbn [map].
  - unfold eraseState. now rewrite E.
  - unfold eraseState. cbn [html listBuffer listType inCodeBlock codeBuffer map].
    f_equal. rewrite !erase_app, !erase_lit, <- escapeHtml_erase, <- join_erase.
    now rewrite erase_lit.
Qed.

Lemma spacesThenRest_erase (s : list C) :
  spacesThenRest (erase s) = option_map erase (spacesThenRest s).
Proof.
  unfold spacesThenRest. rewrite span_erase.
  destruct (span isSpace s) as [ws r]. cbn [fst snd].
  destruct ws as [|w ws]; [reflexivity|]. rewrite erase_cons.
  cbn [option_map]. now rewrite span_erase.
Qed.

Lemma headingMatch_erase line :
  headingMatch (erase line)
  = option_map (fun x => (fst x, erase (snd x))) (headingMatch line).
Proof.
  unfold headingMatch. cbn [firstSome].
  rewrite !startsWith_erase, !erase_skipn, !spacesThenRest_erase.
  repeat match goal with
  | |- context [if ?b then _ else _] => destruct b
  | |- context [option_map _ (spacesThenRest ?s)] => destruct (spacesThenRest s)
  end; reflexivity.
Qed.

Lemma bulletMatch_erase line :
  bulletMatch (erase line) = option_map erase (bulletMatch line).
Proof.
  destruct line as [|c r]; [reflexivity|]. rewrite erase_cons. cbn.
  destruct (isBullet (code c)); [apply spacesThenRest_erase|reflexivity].
Qed.

Lemma orderedMatch_erase line :
  orderedMatch (erase line) = option_map erase (orderedMatch line).
Proof.
  unfold orderedMatch. rewrite span_erase.
  destruct (span isDigit line) as [ds r]. cbn [fst snd].
  destruct ds as [|d ds]; [reflexivity|]. rewrite erase_cons.
  destruct r as [|c r]; [reflexivity|]. rewrite erase_cons. cbn.
  destruct (code c =? DOT)%N; [apply spacesThenRest_erase|reflexivity].
Qed.

Lemma emit_erase st (x : list C) : emit (erase x) (eraseState st) = eraseState (emit x st).
Proof. unfold emit, eraseState. cbn. now rewrite erase_app. Qed.

Lemma pushItem_erase st k g :
  pushItem k (erase g) (eraseState st) = eraseState (pushItem k g st).
Proof.
  unfold pushItem. rewrite flushList_erase.
  cbn [eraseState listType].
  destruct (listType st) as [k'|]; [destruct (listKind_eqb k' k)|];
    unfold eraseState; cbn [html listBuffer listType inCodeBlock codeBuffer];
    rewrite map_app; cbn [map];
    now rewrite !erase_app, !erase_lit, applyInlineFormatting_erase.
Qed.

Lemma step_erase st rawLine :
  step (eraseState st) (erase rawLine) = eraseState (step st rawLine).
Proof.
  unfold step. rewrite trimEnd_erase, startsWith_erase, trim_erase.
  cbn [eraseState inCodeBlock].
  destruct (startsWith fence (trimEnd rawLine)).
  - destruct (inCodeBlock st).
    + now rewrite flushCode_erase.
    + now rewrite flushList_erase.
  - destruct (inCodeBlock st).
    + unfold pushCode, eraseState. cbn. now rewrite map_app.
    + destruct (trim (trimEnd rawLine)) as [|c t].
      * rewrite flushList_erase, <- emit_erase. now rewrite erase_lit.
      * rewrite erase_cons, headingMatch_erase, bulletMatch_erase, orderedMatch_erase.
        destruct (headingMatch (trimEnd rawLine)) as [[n g]|]; cbn [option_map fst snd].
        { rewrite flushList_erase, <- emit_erase.
          now rewrite !erase_app, !erase_lit, !digit_erase, applyInlineFormatting_erase. }
        destruct (bulletMatch (trimEnd rawLine)); cbn [option_map];
          [apply pushItem_erase|].
        destruct (orderedMatch (trimEnd rawLine)); cbn [option_map];
          [apply pushItem_erase|].
        rewrite flushList_erase, <- emit_erase.
        now rewrite !erase_app, !erase_lit, applyInlineFormatting_erase.
Qed.

Lemma scan_erase : forall lines st,
  scan (eraseState st) (map erase lines) = eraseState (scan st lines).
Proof.
  induction lines as [|l lines IH]; intros st; [reflexivity|].
  cbn [map scan fold_left]. fold (scan (step (eraseState st) (erase l)) (map erase lines)).
  fold (scan (step st l) lines). now rewrite step_erase, IH.
Qed.

Lemma blockPass_erase (text : list C) : blockPass (erase text) = erase (blockPass text).
Proof.
  unfold blockPass, finish. rewrite split_erase.
  change (@initial N) with (eraseState (@initial C)).
  now rewrite scan_erase, flushList_erase, flushCode_erase.
Qed.

Lemma formatMessageText_erase (text : list C) :
  formatMessageText (erase text) = erase (formatMessageText text).
Proof.
  unfold formatMessageText. rewrite blockPass_erase.
  destruct (blockPass text) as [|c out]; [apply applyInlineFormatting_erase|reflexivity].
Qed.

End StateErasure.

Lemma erase_taint (text : list N) : erase (taint text) = text.
Proof.
  unfold erase, taint. rewrite map_map. cbn. apply map_id.
Qed.

(** C1.  Run on the message with every character tagged as input, the
    renderer returns, tag by tag, the markup it returns on the message
    itself.  That result is markup: characters that are no ampersand,
    less-than or greater-than sign, entities and tags written by the
    renderer, and hyperlink opening tags around an escaped URL.  No
    ampersand, less-than or greater-than sign of the result is a character
    of the message. *)
Theorem injection_safety (text : list N) :
  let out := formatMessageText (taint text) in
  map code out = formatMessageText text
  /\ Markup out
  /\ Markup (formatMessageText text)
  /\ Forall (fun c : tagged => isSpecial (code c) = true -> snd c = Generated) out
  /\ formatMessageText (js "<b>x</b> & http://a?b <c>")
     = js "<p>&lt;b&gt;x&lt;/b&gt; &amp; " ++ anchorFor "http://a?b" ++ js " &lt;c&gt;</p>".
Proof.
  intros out. split; [|split; [|split; [|split; [|vm_compute; reflexivity]]]].
  - change (map code out) with (erase out). unfold out.
    now rewrite <- formatMessageText_erase, erase_taint.
  - apply formatMessageText_Markup.
  - apply formatMessageText_Markup.
  - apply Markup_generated, formatMessageText_Markup.
Qed.

(** * Further properties of the renderer *)

(** ** The escaper *)

Section EscaperFacts.

Context {C : Type} `{CodeUnit C}.

Lemma escapeChar_plain (c : C) : isSpecial (code c) = false -> escapeChar c = [c].
Proof.
  unfold escapeChar, isSpecial. intros Hc.
  apply orb_false_iff in Hc as [Hc Hg]. apply orb_false_iff in Hc as [Ha Hl].
  now rewrite Ha, Hl, Hg.
Qed.

Lemma escapeChar_special (c : C) :
  isSpecial (code c) = true ->
  exists t, In t entities /\ escapeChar c = lit t.
Proof.
  unfold escapeChar, isSpecial. intros Hc.
  destruct (code c =? AMP)%N; [exists "&amp;"; cbn; tauto|].
  destruct (code c =? LT)%N; [exists "&lt;"; cbn; tauto|].
  destruct (code c =? GT)%N; [exists "&gt;"; cbn; tauto|discriminate].
Qed.

Lemma escapeHtml_nil : escapeHtml (@nil C) = [].
Proof. reflexivity. Qed.

Lemma escapeHtml_cons (c : C) s : escapeHtml (c :: s) = escapeChar c ++ escapeHtml s.
Proof. now rewrite !escapeHtml_flat_map. Qed.

Lemma escapeHtml_app (a b : list C) : escapeHtml (a ++ b) = escapeHtml a ++ escapeHtml b.
Proof. rewrite !escapeHtml_flat_map. apply flat_map_app. Qed.

Lemma escapeHtml_plain (s : list C) :
  Forall (fun c => isSpecial (code c) = false) s -> escapeHtml s = s.
Proof.
  intros Hs. induction Hs as [|c s Hc Hs IH]; [reflexivity|].
  now rewrite escapeHtml_cons, escapeChar_plain, IH.
Qed.

Lemma escapeHtml_lit_plain t :
  forallb (fun x => negb (isSpecial x)) (codes t) = true ->
  escapeHtml (lit (C := C) t) = lit t.
Proof.
  intros Ht. apply escapeHtml_plain. unfold lit.
  rewrite forallb_forall in Ht. apply Forall_forall. intros c Hc.
  apply in_map_iff in Hc as (n & <- & Hn). rewrite code_gen.
  now apply negb_true_iff, Ht.
Qed.

Lemma escapeHtml_length (s : list C) : length s <= length (escapeHtml s).
Proof.
  induction s as [|c s IH]; [cbn; lia|].
  rewrite escapeHtml_cons, length_app. cbn [length].
  destruct (isSpecial (code c)) eqn:Hc.
  - destruct (escapeChar_special c Hc) as (t & Ht & ->).
    cbn in Ht. destruct Ht as [<-|[<-|[<-|[]]]]; cbn; lia.
  - rewrite (escapeChar_plain c Hc). cbn. lia.
Qed.

Lemma escapeHtml_grows (s : list C) :
  Exists (fun c => isSpecial (code c) = true) s -> length s < length (escapeHtml s).
Proof.
  intros Hs. induction Hs as [c s Hc|c s Hs IH];
    rewrite escapeHtml_cons, length_app; cbn [length].
  - pose proof (escapeHtml_length s).
    destruct (escapeChar_special c Hc) as (t & Ht & ->).
    cbn in Ht. destruct Ht as [<-|[<-|[<-|[]]]]; cbn; lia.
  - assert (1 <= length (escapeChar c)); [|lia].
    destruct (isSpecial (code c)) eqn:Hc.
    + destruct (escapeChar_special c Hc) as (t & Ht & ->).
      cbn in Ht. destruct Ht as [<-|[<-|[<-|[]]]]; cbn; lia.
    + rewrite (escapeChar_plain c Hc). cbn. lia.
Qed.

Lemma special_dec (s : list C) :
  Forall (fun c => isSpecial (code c) = false) s
  \/ Exists (fun c => isSpecial (code c) = true) s.
Proof.
  induction s as [|c s [IH|IH]].
  - left. constructor.
  - destruct (isSpecial (code c)) eqn:Hc.
    + right. now constructor.
    + left. now constructor.
  - right. now constructor 2.
Qed.

Lemma escapeHtml_ampersand (s : list C) :
  Exists (fun c => isSpecial (code c) = true) s ->
  Exists (fun c => isSpecial (code c) = true) (escapeHtml s).
Proof.
  intros Hs. induction Hs as [c s Hc|c s Hs IH]; rewrite escapeHtml_cons;
    apply Exists_app.
  - left. destruct (escapeChar_special c Hc) as (t & Ht & ->).
    cbn in Ht. destruct Ht as [<-|[<-|[<-|[]]]];
      constructor; cbn; now rewrite code_gen.
  - now right.
Qed.

(** The result of [escapeHtml] holds no less-than and no greater-than
    sign, whatever the input. *)
Lemma escapeHtml_no_angle (s : list C) :
  Forall (fun c => code c <> LT /\ code c <> GT) (escapeHtml s).
Proof.
  induction s as [|c s IH]; [constructor|].
  rewrite escapeHtml_cons. apply Forall_app. split; [|assumption].
  destruct (isSpecial (code c)) eqn:Hc.
  - destruct (escapeChar_special c Hc) as (t & Ht & ->).
    cbn in Ht. destruct Ht as [<-|[<-|[<-|[]]]];
      cbn; repeat constructor; rewrite code_gen; discriminate.
  - rewrite (escapeChar_plain c Hc). repeat constructor;
      intros E; rewrite E in Hc; discriminate.
Qed.

(** X1.  [escapeHtml] returns its input exactly when the input holds no
    ampersand, less-than or greater-than sign, and escaping a second time
    changes the result exactly when the input holds one: the function is
    not idempotent on such an input.  Its result never holds a less-than
    or greater-than sign. *)
Theorem escapeHtml_fixed_points (s : list C) :
  (escapeHtml s = s <-> Forall (fun c => isSpecial (code c) = false) s)
  /\ (escapeHtml (escapeHtml s) = escapeHtml s
      <-> Forall (fun c => isSpecial (code c) = false) s)
  /\ Forall (fun c => code c <> LT /\ code c <> GT) (escapeHtml s).
Proof.
  assert (Hfix : forall t : list C,
    escapeHtml t = t <-> Forall (fun c => isSpecial (code c) = false) t).
  { intros t. split; [|apply escapeHtml_plain].
    intros Heq. destruct (special_dec t) as [Hp|He]; [assumption|].
    apply escapeHtml_grows in He. rewrite Heq in He. lia. }
  split; [apply Hfix|]. split; [|apply escapeHtml_no_angle].
  rewrite Hfix. split.
  - intros Hp. destruct (special_dec s) as [Hs|He]; [assumption|].
    apply escapeHtml_ampersand in He. apply Exists_exists in He as (c & Hin & Hc).
    rewrite Forall_forall in Hp. rewrite (Hp c Hin) in Hc. discriminate.
  - intros Hs. now rewrite (escapeHtml_plain s Hs).
Qed.

(** X2.  [escapeHtml] works character by character: the escaped text of a
    concatenation is the concatenation of the escaped texts, and lines
    joined by a line feed and then escaped are the escaped lines joined by
    a line feed, which is what [flushCode] writes into a code block. *)
Theorem escapeHtml_distributes (a b : list C) (buffer : list (list C)) :
  escapeHtml (a ++ b) = escapeHtml a ++ escapeHtml b
  /\ escapeHtml (join (lit nl) buffer) = join (lit nl) (map escapeHtml buffer).
Proof.
  split; [apply escapeHtml_app|].
  induction buffer as [|x xs IH]; [reflexivity|].
  destruct xs as [|y xs]; [reflexivity|].
  change (join (lit nl) (x :: y :: xs)) with (x ++ lit nl ++ join (lit nl) (y :: xs)).
  rewrite !escapeHtml_app, IH, (escapeHtml_lit_plain nl eq_refl). reflexivity.
Qed.

End EscaperFacts.

Lemma escapeChar_cases (c : N) :
  (isSpecial c = false /\ escapeChar c = [c])
  \/ (c = AMP /\ escapeChar c = [38; 97; 109; 112; 59]%N)
  \/ (c = LT /\ escapeChar c = [38; 108; 116; 59]%N)
  \/ (c = GT /\ escapeChar c = [38; 103; 116; 59]%N).
Proof.
  unfold escapeChar, isSpecial. cbn [code plainUnit].
  destruct (c =? AMP)%N eqn:Ea; [right; left; apply N.eqb_eq in Ea; now split|].
  destruct (c =? LT)%N eqn:El; [right; right; left; apply N.eqb_eq in El; now split|].
  destruct (c =? GT)%N eqn:Eg; [right; right; right; apply N.eqb_eq in Eg; now split|].
  left. now split.
Qed.

(** X3.  [escapeHtml] loses nothing: two texts with the same escaped text
    are the same text. *)
Theorem escapeHtml_injective : forall a b : list N,
  escapeHtml a = escapeHtml b -> a = b.
Proof.
  induction a as [|c a IH]; intros [|d b] Heq.
  - reflexivity.
  - rewrite escapeHtml_cons in Heq.
    destruct (escapeChar_cases d) as [[_ E]|[[_ E]|[[_ E]|[_ E]]]];
      rewrite E in Heq; discriminate.
  - rewrite escapeHtml_cons in Heq.
    destruct (escapeChar_cases c) as [[_ E]|[[_ E]|[[_ E]|[_ E]]]];
      rewrite E in Heq; discriminate.
  - rewrite !escapeHtml_cons in Heq.
    destruct (escapeChar_cases c) as [[Hc Ec]|[[Hc Ec]|[[Hc Ec]|[Hc Ec]]]];
    destruct (escapeChar_cases d) as [[Hd Ed]|[[Hd Ed]|[[Hd Ed]|[Hd Ed]]]];
    rewrite Ec, Ed in Heq; cbn [app] in Heq; subst;
    try (injection Heq as Heq; f_equal; now apply IH);
    try (injection Heq as E Heq; subst; discriminate);
    try discriminate.
    injection Heq as -> Heq. f_equal. now apply IH.
Qed.

(** ** Lines *)

Lemma isSpace_cases n :
  isSpace n = true ->
  (n =? HASH)%N = false /\ (n =? BACKTICK)%N = false
  /\ isBullet n = false /\ isDigit n = false /\ isSpecial n = false.
Proof.
  intros Hs. repeat split.
  - destruct (n =? HASH)%N eqn:E; [|reflexivity].
    apply N.eqb_eq in E. subst n. discriminate.
  - destruct (n =? BACKTICK)%N eqn:E; [|reflexivity].
    apply N.eqb_eq in E. subst n. discriminate.
  - destruct (isBullet n) eqn:E; [|reflexivity]. unfold isBullet in E.
    repeat (apply orb_true_iff in E as [E|E]); apply N.eqb_eq in E; subst n; discriminate.
  - destruct (isDigit n) eqn:E; [|reflexivity]. unfold isDigit in E.
    apply andb_true_iff in E as [E1 E2]. apply N.leb_le in E1, E2.
    unfold isSpace, isWhiteSpace, isLineTerminator in Hs.
    repeat (apply orb_true_iff in Hs as [Hs|Hs]);
      try (apply N.eqb_eq in Hs; lia).
    apply andb_true_iff in Hs as [H1 H2]. apply N.leb_le in H1. lia.
  - destruct (isSpecial n) eqn:E; [|reflexivity]. unfold isSpecial in E.
    repeat (apply orb_true_iff in E as [E|E]); apply N.eqb_eq in E; subst n; discriminate.
Qed.

Section LineRules.

Context {C : Type} `{CodeUnit C}.

Implicit Types (st : @state C) (rawLine line : list C).

Lemma trimEnd_spaces (ws : list C) :
  Forall (fun c => isSpace (code c) = true) ws -> trimEnd ws = [].
Proof.
  intros Hws. induction Hws as [|c ws Hc Hws IH]; [reflexivity|].
  cbn. now rewrite IH, Hc.
Qed.

Lemma trimEnd_app_spaces line (ws : list C) :
  Forall (fun c => isSpace (code c) = true) ws -> trimEnd (line ++ ws) = trimEnd line.
Proof.
  intros Hws. induction line as [|c line IH]; [now apply trimEnd_spaces|].
  cbn. now rewrite IH.
Qed.

(** X4.  Outside a code block the space at the end of a line does not
    count: the line with and without it is treated alike.  Inside a code
    block a line that is no fence is buffered as it is, with that space,
    and nothing is written. *)
Theorem trailing_space (st : state) (line ws : list C) :
  Forall (fun c => isSpace (code c) = true) ws ->
  (inCodeBlock st = false -> step st (line ++ ws) = step st line)
  /\ (inCodeBlock st = true -> startsWith fence (trimEnd line) = false ->
      step st (line ++ ws) = pushCode (line ++ ws) st
      /\ codeBuffer (step st (line ++ ws)) = codeBuffer st ++ [line ++ ws]
      /\ html (step st (line ++ ws)) = html st).
Proof.
  intros Hws. split.
  - intros Hc. unfold step. now rewrite (trimEnd_app_spaces line ws Hws), Hc.
  - intros Hc Hf. unfold step. rewrite (trimEnd_app_spaces line ws Hws), Hf, Hc.
    repeat split.
Qed.

Lemma headingMatch_other (c : C) r :
  (code c =? HASH)%N = false -> headingMatch (c :: r) = None.
Proof. intros Hc. unfold headingMatch. cbn. now rewrite Hc. Qed.

Lemma orderedMatch_other (c : C) r :
  isDigit (code c) = false -> orderedMatch (c :: r) = None.
Proof. intros Hc. unfold orderedMatch. cbn. now rewrite Hc. Qed.

Lemma fence_other (c : C) r :
  (code c =? BACKTICK)%N = false -> startsWith fence (c :: r) = false.
Proof. intros Hc. cbn. now rewrite Hc. Qed.

Lemma trimEnd_idempotent : forall s : list C, trimEnd (trimEnd s) = trimEnd s.
Proof.
  induction s as [|c s IH]; [reflexivity|].
  cbn. destruct (trimEnd s) as [|x t] eqn:E.
  - destruct (isSpace (code c)) eqn:Hc; [reflexivity|]. cbn. now rewrite Hc.
  - change (trimEnd (c :: x :: t)) with
      (match trimEnd (x :: t) with
       | [] => if isSpace (code c) then [] else [c]
       | y :: u => c :: y :: u
       end).
    now rewrite IH.
Qed.

Lemma trimEnd_not_blank : forall s : list C,
  trimEnd s = [] \/ Exists (fun c => isSpace (code c) = false) (trimEnd s).
Proof.
  induction s as [|c s [IH|IH]]; [now left| |].
  - cbn. rewrite IH. destruct (isSpace (code c)) eqn:Hc; [now left|].
    right. now constructor.
  - right. cbn. destruct (trimEnd s) as [|x t]; [inversion IH|].
    now constructor 2.
Qed.

Lemma dropWhile_nil p : forall s : list C,
  dropWhile p s = [] -> Forall (fun c => p (code c) = true) s.
Proof.
  induction s as [|c s IH]; [constructor|].
  cbn. destruct (p (code c)) eqn:Hc; [|discriminate].
  intros Hd. constructor; auto.
Qed.

(** What [trimEnd] leaves is blank only if it is empty. *)
Lemma trim_trimEnd_not_blank (s : list C) : trimEnd s <> [] -> trim (trimEnd s) <> [].
Proof.
  intros Hne Hblank. unfold trim in Hblank. rewrite trimEnd_idempotent in Hblank.
  apply dropWhile_nil in Hblank.
  destruct (trimEnd_not_blank s) as [E|E]; [contradiction|].
  apply Exists_exists in E as (c & Hin & Hc).
  rewrite Forall_forall in Hblank. rewrite (Hblank c Hin) in Hc. discriminate.
Qed.

(** X5.  Block syntax starts in the first column: outside a code block a
    line that is not blank and starts with a space is a paragraph,
    whatever follows the space. *)
Theorem indented_line_is_paragraph (st : state) (rawLine : list C) (w : C) (r : list C) :
  inCodeBlock st = false ->
  trimEnd rawLine = w :: r ->
  isSpace (code w) = true ->
  step st rawLine
  = emit (lit "<p>" ++ applyInlineFormatting (w :: r) ++ lit "</p>") (flushList st).
Proof.
  intros Hc Hline Hw.
  assert (Hblank : trim (w :: r) <> []).
  { rewrite <- Hline. apply trim_trimEnd_not_blank. now rewrite Hline. }
  unfold step. rewrite Hline, Hc.
  destruct (isSpace_cases (code w) Hw) as (Hh & Hb & Hbul & Hd & _).
  rewrite (fence_other w r Hb).
  destruct (trim (w :: r)) as [|x t]; [contradiction|].
  rewrite (headingMatch_other w r Hh), (orderedMatch_other w r Hd).
  cbn [bulletMatch]. now rewrite Hbul.
Qed.

(** A blank line outside a code block. *)
Lemma step_blank st rawLine :
  inCodeBlock st = false ->
  Forall (fun c => isSpace (code c) = true) rawLine ->
  step st rawLine = emit (lit "<br>") (flushList st).
Proof.
  intros Hc Hws. unfold step. now rewrite (trimEnd_spaces rawLine Hws), Hc.
Qed.

Lemma split_spaces : forall text : list C,
  Forall (fun c => isSpace (code c) = true) text ->
  Forall (Forall (fun c => isSpace (code c) = true)) (split text).
Proof.
  induction text as [|c text IH]; intros Hs; [repeat constructor|].
  inversion Hs as [|? ? Hc Hs']; subst. specialize (IH Hs').
  cbn. destruct (code c =? NEWLINE)%N; [constructor; [constructor|assumption]|].
  destruct (split text) as [|l ls]; [repeat constructor; assumption|].
  inversion IH; subst. constructor; [now constructor|assumption].
Qed.

Lemma split_length : forall text : list C,
  length (split text) = S (length (filter (fun c => (code c =? NEWLINE)%N) text)).
Proof.
  induction text as [|c text IH]; [reflexivity|].
  cbn. destruct (code c =? NEWLINE)%N; cbn; [now rewrite IH|].
  destruct (split text); [discriminate|exact IH].
Qed.

Lemma scan_blank : forall (lines : list (list C)) st,
  inCodeBlock st = false -> listBuffer st = [] ->
  Forall (Forall (fun c => isSpace (code c) = true)) lines ->
  scan st lines
  = emit (concat (map (fun _ => lit "<br>") lines)) st.
Proof.
  induction lines as [|l lines IH]; intros st Hc Hl Hlines.
  - unfold emit. cbn. rewrite app_nil_r. now destruct st.
  - inversion Hlines; subst. cbn [scan fold_left]. fold (scan (step st l) lines).
    rewrite (step_blank st l Hc) by assumption.
    rewrite (flushList_closed st Hl), IH; try assumption.
    unfold emit. cbn. now rewrite <- app_assoc.
Qed.

(** X6.  A text of nothing but space (blanks, tabs, line breaks) renders
    as one line break for each of its lines, one more than it has line
    feeds; the inline fallback is not taken for it. *)
Theorem blank_text_breaks (text : list C) :
  Forall (fun c => isSpace (code c) = true) text ->
  formatMessageText text = concat (map (fun _ => lit "<br>") (split text))
  /\ length (split text) = S (length (filter (fun c => (code c =? NEWLINE)%N) text)).
Proof.
  intros Hs. split; [|apply split_length].
  apply formatMessageText_block.
  - unfold blockPass, finish.
    rewrite (scan_blank (split text) initial eq_refl eq_refl (split_spaces text Hs)).
    reflexivity.
  - pose proof (split_length text) as Hlen.
    destruct (split text); [discriminate|]. cbn. discriminate.
Qed.

End LineRules.

(** ** List items *)

Section ItemRules.

Context {C : Type} `{CodeUnit C}.

Implicit Types (st : @state C) (rawLine line : list C).

(** X7.  Outside a code block a line of one bullet character (hyphen,
    asterisk or one of the three other characters of the class), at least
    one space and a text is an item of an unordered list: the item is the
    inline formatted text up to its first line terminator, what follows a
    line terminator inside the line is dropped. *)
Theorem bullet_rule (st : state) (rawLine : list C) (b : C) (ws : list C) (c : C) (text : list C) :
  inCodeBlock st = false ->
  isBullet (code b) = true ->
  ws <> [] ->
  Forall (fun x => isSpace (code x) = true) ws ->
  isSpace (code c) = false ->
  trimEnd rawLine = b :: ws ++ c :: text ->
  itemLine rawLine = Some (ul, fst (span notLineTerminator (c :: text)))
  /\ step st rawLine = pushItem ul (fst (span notLineTerminator (c :: text))) st.
Proof.
  intros Hc Hb Hne Hws Hx Hline.
  assert (Hitem : itemLine rawLine = Some (ul, fst (span notLineTerminator (c :: text)))).
  { unfold itemLine. rewrite Hline.
    assert (Hbt : (code b =? BACKTICK)%N = false).
    { unfold isBullet in Hb. destruct (code b =? BACKTICK)%N eqn:E; [|reflexivity].
      apply N.eqb_eq in E. rewrite E in Hb. discriminate. }
    assert (Hbh : (code b =? HASH)%N = false).
    { unfold isBullet in Hb. destruct (code b =? HASH)%N eqn:E; [|reflexivity].
      apply N.eqb_eq in E. rewrite E in Hb. discriminate. }
    rewrite (fence_other b _ Hbt).
    assert (Hblank : trim (b :: ws ++ c :: text) <> []).
    { rewrite <- Hline. apply trim_trimEnd_not_blank. now rewrite Hline. }
    destruct (trim (b :: ws ++ c :: text)); [contradiction|].
    rewrite (headingMatch_other b _ Hbh). cbn [bulletMatch]. rewrite Hb.
    destruct ws as [|w ws]; [contradiction|]. cbn [app].
    now rewrite (spacesThenRest_spaces w ws c text Hws Hx). }
  split; [exact Hitem|]. now apply step_itemLine.
Qed.

Lemma isDigit_cases n :
  isDigit n = true ->
  (n =? HASH)%N = false /\ (n =? BACKTICK)%N = false /\ isBullet n = false
  /\ isSpace n = false /\ (n =? DOT)%N = false.
Proof.
  intros Hd. unfold isDigit in Hd. apply andb_true_iff in Hd as [H1 H2].
  apply N.leb_le in H1, H2. repeat split.
  - apply N.eqb_neq. unfold HASH. lia.
  - apply N.eqb_neq. unfold BACKTICK. lia.
  - unfold isBullet. repeat (apply orb_false_iff; split); apply N.eqb_neq; lia.
  - unfold isSpace, isWhiteSpace, isLineTerminator.
    repeat (apply orb_false_iff; split); try (apply N.eqb_neq; lia).
    apply andb_false_iff. left. apply N.leb_gt. lia.
  - apply N.eqb_neq. unfold DOT. lia.
Qed.

(** X8.  Outside a code block a line of digits, a dot, at least one space
    and a text is an item of an ordered list: the item is the inline
    formatted text up to its first line terminator.  The number is not
    part of the item, so it does not reach the markup. *)
Theorem ordered_rule (st : state) (rawLine : list C) (d : C) (ds : list C) (p : C)
    (ws : list C) (c : C) (text : list C) :
  inCodeBlock st = false ->
  Forall (fun x => isDigit (code x) = true) (d :: ds) ->
  code p = DOT ->
  ws <> [] ->
  Forall (fun x => isSpace (code x) = true) ws ->
  isSpace (code c) = false ->
  trimEnd rawLine = (d :: ds) ++ p :: ws ++ c :: text ->
  itemLine rawLine = Some (ol, fst (span notLineTerminator (c :: text)))
  /\ step st rawLine = pushItem ol (fst (span notLineTerminator (c :: text))) st.
Proof.
  intros Hc Hds Hp Hne Hws Hx Hline.
  assert (Hitem : itemLine rawLine = Some (ol, fst (span notLineTerminator (c :: text)))).
  { unfold itemLine. rewrite Hline.
    inversion Hds as [|? ? Hd Hds']; subst.
    destruct (isDigit_cases (code d) Hd) as (Hh & Hb & Hbul & _ & _).
    change ((d :: ds) ++ p :: ws ++ c :: text) with (d :: ds ++ p :: ws ++ c :: text).
    rewrite (fence_other d _ Hb).
    assert (Hblank : trim (d :: ds ++ p :: ws ++ c :: text) <> []).
    { change (d :: ds ++ p :: ws ++ c :: text) with ((d :: ds) ++ p :: ws ++ c :: text).
      rewrite <- Hline. apply trim_trimEnd_not_blank. now rewrite Hline. }
    destruct (trim (d :: ds ++ p :: ws ++ c :: text)); [contradiction|].
    rewrite (headingMatch_other d _ Hh). cbn [bulletMatch]. rewrite Hbul.
    unfold orderedMatch.
    change (d :: ds ++ p :: ws ++ c :: text) with ((d :: ds) ++ p :: ws ++ c :: text).
    rewrite (span_prefix isDigit (d :: ds) (p :: ws ++ c :: text) Hds)
      by (rewrite Hp; reflexivity).
    rewrite Hp. cbn [N.eqb DOT Pos.eqb]. rewrite ?N.eqb_refl.
    destruct ws as [|w ws]; [contradiction|]. cbn [app].
    now rewrite (spacesThenRest_spaces w ws c text Hws Hx). }
  split; [exact Hitem|]. now apply step_itemLine.
Qed.

End ItemRules.

(** ** Code blocks *)

Section CodeBlocks.

Context {C : Type} `{CodeUnit C}.

Implicit Types (st : @state C) (rawLine line : list C).

Lemma split_not_nil (s : list C) : split s <> [].
Proof.
  destruct s as [|c s]; [discriminate|]. cbn.
  destruct (code c =? NEWLINE)%N; [discriminate|]. now destruct (split s).
Qed.

(** The lines of two texts joined by a line feed. *)
Lemma split_app_newline (c : C) (b : list C) : code c = NEWLINE ->
  forall a, split (a ++ c :: b) = split a ++ split b.
Proof.
  intros Hc. induction a as [|x a IH].
  - cbn. now rewrite Hc.
  - cbn. destruct (code x =? NEWLINE)%N; [now rewrite IH|].
    rewrite IH. pose proof (split_not_nil a). now destruct (split a).
Qed.

Lemma split_one_line : forall a : list C,
  Forall (fun c => code c <> NEWLINE) a -> split a = [a].
Proof.
  intros a Ha. induction Ha as [|c a Hc Ha IH]; [reflexivity|].
  cbn. apply N.eqb_neq in Hc. now rewrite Hc, IH.
Qed.

(** Inside a code block the lines that are no fence are buffered. *)
Lemma scan_code : forall (lines : list (list C)) st,
  inCodeBlock st = true ->
  Forall (fun l => startsWith fence (trimEnd l) = false) lines ->
  scan st lines
  = {| html := html st; listBuffer := listBuffer st; listType := listType st;
       inCodeBlock := true; codeBuffer := codeBuffer st ++ lines |}.
Proof.
  induction lines as [|l lines IH]; intros st Hc Hl.
  - cbn. rewrite app_nil_r. destruct st; cbn in *. now subst.
  - inversion Hl as [|? ? Hf Hl']; subst. cbn [scan fold_left].
    fold (scan (step st l) lines).
    assert (Hstep : step st l = pushCode l st) by (unfold step; now rewrite Hf, Hc).
    rewrite Hstep, IH; [|exact Hc|assumption].
    cbn. now rewrite <- app_assoc.
Qed.

End CodeBlocks.

(** Splitting at the line feeds and joining with line feeds gives the text
    back. *)
Lemma join_split : forall s : list N, join (lit nl) (split s) = s.
Proof.
  induction s as [|c s IH]; [reflexivity|].
  pose proof (split_not_nil s) as Hne. cbn [split code plainUnit].
  destruct (c =? NEWLINE)%N eqn:E.
  - apply N.eqb_eq in E. subst c.
    destruct (split s) as [|l ls]; [contradiction|].
    change (join (lit nl) ([] :: l :: ls)) with ([] ++ lit nl ++ join (lit nl) (l :: ls)).
    now rewrite IH.
  - destruct (split s) as [|l ls]; [contradiction|].
    destruct ls as [|l' ls].
    + cbn in *. now rewrite IH.
    + change (join (lit nl) ((c :: l) :: l' :: ls))
        with (c :: (l ++ lit nl ++ join (lit nl) (l' :: ls))).
      change (join (lit nl) (l :: l' :: ls))
        with (l ++ lit nl ++ join (lit nl) (l' :: ls)) in IH.
      now rewrite IH.
Qed.

(** X9.  The text between an opening fence line and a closing fence line,
    or the end of the text, is written into one code block, escaped and
    otherwise unchanged: spaces and line breaks are kept and no inline
    formatting is applied.  What follows the backticks on a fence line,
    such as a language tag, is dropped. *)
Theorem fenced_code_block (opening body : list N) :
  startsWith fence (trimEnd opening) = true ->
  Forall (fun c => c <> NEWLINE) opening ->
  Forall (fun l => startsWith fence (trimEnd l) = false) (split body) ->
  formatMessageText (opening ++ NEWLINE :: body)
  = js "<pre><code>" ++ escapeHtml body ++ js "</code></pre>"
  /\ (forall closing : list N,
        startsWith fence (trimEnd closing) = true ->
        Forall (fun c => c <> NEWLINE) closing ->
        formatMessageText (opening ++ NEWLINE :: body ++ NEWLINE :: closing)
        = js "<pre><code>" ++ escapeHtml body ++ js "</code></pre>").
Proof.
  intros Hopen Hline Hbody.
  assert (Hnl : code NEWLINE = NEWLINE) by reflexivity.
  assert (Hline' : Forall (fun c : N => code c <> NEWLINE) opening) by exact Hline.
  assert (Hfirst : step initial opening
            = {| html := []; listBuffer := []; listType := None;
                 inCodeBlock := true; codeBuffer := @nil (list N) |}).
  { unfold step. now rewrite Hopen. }
  assert (Hblock : codeBlockOf (split body)
            = js "<pre><code>" ++ escapeHtml body ++ js "</code></pre>").
  { unfold codeBlockOf. pose proof (split_not_nil body).
    destruct (split body) eqn:E; [contradiction|]. rewrite <- E.
    now rewrite join_split. }
  split.
  - apply formatMessageText_block; [|discriminate].
    rewrite blockPass_flushes.
    rewrite (split_app_newline NEWLINE body Hnl), (split_one_line opening Hline').
    cbn [app scan fold_left]. fold (scan (step initial opening) (split body)).
    rewrite Hfirst, scan_code by (reflexivity || assumption).
    cbn [html listBuffer listType codeBuffer listBlockOf app]. exact Hblock.
  - intros closing Hclose Hcl0.
    assert (Hcl : Forall (fun c : N => code c <> NEWLINE) closing) by exact Hcl0.
    apply formatMessageText_block; [|discriminate].
    rewrite blockPass_flushes.
    rewrite (split_app_newline NEWLINE (body ++ NEWLINE :: closing) Hnl),
      (split_one_line opening Hline'),
      (split_app_newline NEWLINE closing Hnl), (split_one_line closing Hcl).
    cbn [app scan fold_left].
    fold (scan (step initial opening) (split body ++ [closing])).
    rewrite Hfirst, scan_app.
    match goal with |- context [scan ?st1 (split body)] =>
      rewrite (scan_code (split body) st1 eq_refl Hbody)
    end.
    cbn [scan fold_left html listBuffer listType codeBuffer app]. unfold step.
    rewrite Hclose. cbn [inCodeBlock].
    cbn [setInCodeBlock html listBuffer listType codeBuffer].
    rewrite flushCode_buffer, flushCode_html.
    destruct (flushCode_lists
                {| html := []; listBuffer := []; listType := None;
                   inCodeBlock := true; codeBuffer := split body |}) as (-> & -> & _).
    cbn [html listBuffer listType codeBuffer listBlockOf codeBlockOf app].
    rewrite !app_nil_r. exact Hblock.
Qed.

(** ** The result is never empty *)

Section NeverEmpty.

Context {C : Type} `{CodeUnit C}.

Lemma replaceAll_not_nil (m : @matcher C) repl (s : list C) :
  (forall g, repl g <> []) -> s <> [] -> replaceAll m repl s <> [].
Proof.
  intros Hrepl Hs. destruct s as [|c s]; [contradiction|].
  unfold replaceAll. cbn. destruct (m (c :: s)) as [[g len]|]; [|discriminate].
  intros Hnil. apply app_eq_nil in Hnil as [Hnil _]. now apply (Hrepl g).
Qed.

Lemma applyInlineFormatting_not_nil (str : list C) :
  str <> [] -> applyInlineFormatting str <> [].
Proof.
  intros Hs. unfold applyInlineFormatting, linkPass, codePass, italicPass, boldPass,
    escapeHtml.
  repeat (apply replaceAll_not_nil; [intros g; cbn; discriminate|]).
  exact Hs.
Qed.

(** X10.  The renderer never returns the empty string: the empty text
    renders as a line break, and a text whose block pass writes nothing
    (fence lines only) comes back inline formatted. *)
Theorem formatMessageText_not_empty (text : list C) : formatMessageText text <> [].
Proof.
  unfold formatMessageText. destruct (blockPass text) eqn:Hb; [|discriminate].
  apply applyInlineFormatting_not_nil. intros ->. discriminate.
Qed.

End NeverEmpty.

(** ** Markup written is never changed *)

Section Frame.

Context {C : Type} `{CodeUnit C}.

Implicit Types (st : @state C) (rawLine line : list C).

Lemma flushList_prepend h st : flushList (prependHtml h st) = prependHtml h (flushList st).
Proof.
  unfold flushList. change (listBuffer (prependHtml h st)) with (listBuffer st).
  destruct (listBuffer st); [reflexivity|].
  unfold prependHtml. cbn. now rewrite <- app_assoc.
Qed.

Lemma flushCode_prepend h st : flushCode (prependHtml h st) = prependHtml h (flushCode st).
Proof.
  unfold flushCode. change (codeBuffer (prependHtml h st)) with (codeBuffer st).
  destruct (codeBuffer st); [reflexivity|].
  unfold prependHtml. cbn. now rewrite <- app_assoc.
Qed.

Lemma emit_prepend h x st : emit x (prependHtml h st) = prependHtml h (emit x st).
Proof. unfold emit, prependHtml. cbn. now rewrite <- app_assoc. Qed.

Lemma pushItem_prepend h k g st :
  pushItem k g (prependHtml h st) = prependHtml h (pushItem k g st).
Proof.
  unfold pushItem. rewrite flushList_prepend. cbn [prependHtml listType].
  now destruct (listType st) as [k'|]; [destruct (listKind_eqb k' k)|].
Qed.

Lemma step_prepend h st rawLine :
  step (prependHtml h st) rawLine = prependHtml h (step st rawLine).
Proof.
  unfold step. change (inCodeBlock (prependHtml h st)) with (inCodeBlock st).
  destruct (startsWith fence (trimEnd rawLine)).
  - destruct (inCodeBlock st).
    + now rewrite flushCode_prepend.
    + now rewrite flushList_prepend.
  - destruct (inCodeBlock st); [reflexivity|].
    destruct (trim (trimEnd rawLine)).
    { now rewrite flushList_prepend, emit_prepend. }
    destruct (headingMatch (trimEnd rawLine)) as [[n g]|].
    { now rewrite flushList_prepend, emit_prepend. }
    destruct (bulletMatch (trimEnd rawLine)); [apply pushItem_prepend|].
    destruct (orderedMatch (trimEnd rawLine)); [apply pushItem_prepend|].
    now rewrite flushList_prepend, emit_prepend.
Qed.

Lemma scan_prepend h : forall lines st,
  scan (prependHtml h st) lines = prependHtml h (scan st lines).
Proof.
  induction lines as [|l lines IH]; intros st; [reflexivity|].
  cbn [scan fold_left]. fold (scan (step (prependHtml h st) l) lines).
  fold (scan (step st l) lines). now rewrite step_prepend, IH.
Qed.

Lemma finish_prepend h st : finish (prependHtml h st) = prependHtml h (finish st).
Proof. unfold finish. now rewrite flushList_prepend, flushCode_prepend. Qed.

(** X11.  The scan only appends: with markup already written in front, the
    same lines give the same result behind that markup.  So rendering
    composes at a line feed where nothing is open: if the lines of [a]
    leave no list and no code block open, the block pass of [a], a line
    feed and [b] writes what it writes for [a] followed by what it writes
    for [b]. *)
Theorem rendering_composes :
  (forall (h : list C) st (lines : list (list C)),
     scan (prependHtml h st) lines = prependHtml h (scan st lines))
  /\ (forall (a b : list C) (c : C),
        code c = NEWLINE ->
        listBuffer (scan initial (split a)) = [] ->
        inCodeBlock (scan initial (split a)) = false ->
        blockPass (a ++ c :: b) = blockPass a ++ blockPass b)
  /\ (forall (a b : list C) (c : C),
        code c = NEWLINE ->
        listBuffer (scan initial (split a)) = [] ->
        inCodeBlock (scan initial (split a)) = false ->
        blockPass a <> [] -> blockPass b <> [] ->
        formatMessageText (a ++ c :: b) = formatMessageText a ++ formatMessageText b).
Proof.
  assert (Hcomp : forall (a b : list C) (c : C),
        code c = NEWLINE ->
        listBuffer (scan initial (split a)) = [] ->
        inCodeBlock (scan initial (split a)) = false ->
        blockPass (a ++ c :: b) = blockPass a ++ blockPass b).
  { intros a b c Hc Hl Hcode.
    assert (Hex : exclusive (scan initial (split a)))
      by apply scan_exclusive, exclusive_initial.
    destruct Hex as [Hb Hk]. rewrite Hcode in Hb.
    assert (Ht : listType (scan initial (split a)) = None) by now apply Hk.
    assert (Hst : scan initial (split a)
                  = prependHtml (html (scan initial (split a))) initial).
    { destruct (scan initial (split a)); cbn in *. subst.
      unfold prependHtml. cbn. now rewrite app_nil_r. }
    assert (Ha : blockPass a = html (scan initial (split a))).
    { unfold blockPass, finish.
      now rewrite (flushList_closed _ Hl), (flushCode_closed _ Hb). }
    rewrite Ha. unfold blockPass at 1.
    rewrite (split_app_newline c b Hc), scan_app, Hst.
    rewrite scan_prepend, finish_prepend. cbn [prependHtml html initial].
    now rewrite app_nil_r. }
  split; [intros h st lines; apply scan_prepend|]. split; [exact Hcomp|].
  intros a b c Hc Hl Hcode Ha Hb.
  rewrite (formatMessageText_block a (blockPass a) eq_refl Ha).
  rewrite (formatMessageText_block b (blockPass b) eq_refl Hb).
  apply formatMessageText_block; [now apply Hcomp|].
  intros Hnil. apply app_eq_nil in Hnil as [Hnil _]. contradiction.
Qed.

End Frame.

(** ** Plain text *)

Section PlainText.

Context {C : Type} `{CodeUnit C}.

Lemma occurs_skipn d : forall k (s : list C),
  occurs d s = false -> occurs d (skipn k s) = false.
Proof.
  induction k as [|k IH]; intros s Hs; [exact Hs|].
  destruct s as [|c s]; [exact Hs|]. cbn [skipn]. apply IH.
  cbn in Hs. now apply orb_false_iff in Hs as [_ Hs].
Qed.

Lemma occurs_startsWith d (s : list C) : occurs d s = false -> startsWith d s = false.
Proof. destruct s; cbn; intros Hs; now apply orb_false_iff in Hs as [Hs _]. Qed.

Lemma matchUrl_slashes (s : list C) : occurs (codes "://") s = false -> matchUrl s = None.
Proof.
  intros Hs. unfold matchUrl, afterScheme.
  rewrite (occurs_startsWith _ _ (occurs_skipn _ 5 s Hs)).
  rewrite (occurs_startsWith _ _ (occurs_skipn _ 4 s Hs)).
  destruct (startsWith (codes "http") s); [|reflexivity].
  now destruct (startsWith (codes "s") (skipn 4 s)).
Qed.

(** Where the pattern matches nowhere the text is kept. *)
Lemma replaceAll_id (m : @matcher C) repl : forall s,
  (forall k, m (skipn k s) = None) -> replaceAll m repl s = s.
Proof.
  induction s as [|c s IH]; intros Hm; [reflexivity|].
  rewrite replaceAll_nomatch by apply (Hm 0). f_equal. apply IH.
  intros k. apply (Hm (S k)).
Qed.

Lemma replaceAll_absent (m : @matcher C) repl x0 (s : list C) :
  (forall c r, code c <> x0 -> m (c :: r) = None) ->
  Forall (fun c => code c <> x0) s -> replaceAll m repl s = s.
Proof.
  intros Hstart Hs. rewrite <- (app_nil_r s) at 1.
  rewrite (replaceAll_prefix m repl x0 Hstart s [] Hs). apply app_nil_r.
Qed.

Lemma boldPass_absent (s : list C) : Forall (fun c => code c <> STAR) s -> boldPass s = s.
Proof. apply replaceAll_absent. intros c r. apply matchDelimited_start. Qed.

Lemma italicPass_absent (s : list C) :
  Forall (fun c => code c <> STAR) s -> italicPass s = s.
Proof. apply replaceAll_absent. intros c r. apply matchDelimited_start. Qed.

Lemma codePass_absent (s : list C) :
  Forall (fun c => code c <> BACKTICK) s -> codePass s = s.
Proof.
  apply replaceAll_absent. intros c r Hc. unfold matchCode. cbn.
  apply N.eqb_neq in Hc. now rewrite Hc.
Qed.

Lemma linkPass_absent (s : list C) : occurs (codes "://") s = false -> linkPass s = s.
Proof.
  intros Hs. apply replaceAll_id. intros k. apply matchUrl_slashes.
  now apply occurs_skipn.
Qed.

(** Escaping brings in no character but those of the entities. *)
Lemma escapeHtml_absent x (s : list C) :
  avoids x entities = true ->
  Forall (fun c => code c <> x) s -> Forall (fun c => code c <> x) (escapeHtml s).
Proof.
  intros Hav Hs. induction Hs as [|c s Hc Hs IH]; [constructor|].
  rewrite escapeHtml_cons. apply Forall_app. split; [|assumption].
  destruct (isSpecial (code c)) eqn:E.
  - destruct (escapeChar_special c E) as (t & Ht & ->). now apply (lit_avoids x entities).
  - rewrite (escapeChar_plain c E). now constructor.
Qed.

Lemma startsWith_escapeHtml (d : list N) : ~ In AMP d ->
  forall s : list C, startsWith d (escapeHtml s) = true -> startsWith d s = true.
Proof.
  intros Hd. induction d as [|x d IH]; intros s Hs; [reflexivity|].
  destruct s as [|c s]; [discriminate|]. rewrite escapeHtml_cons in Hs.
  destruct (isSpecial (code c)) eqn:E.
  - exfalso. destruct (escapeChar_special c E) as (t & Ht & Et). rewrite Et in Hs.
    cbn in Ht. destruct Ht as [<-|[<-|[<-|[]]]]; cbn in Hs; rewrite code_gen in Hs;
      apply andb_true_iff in Hs as [Hx _]; apply N.eqb_eq in Hx;
      apply Hd; left; now rewrite <- Hx.
  - rewrite (escapeChar_plain c E) in Hs. cbn in Hs |- *.
    apply andb_true_iff in Hs as [Hx Hs]. rewrite Hx. cbn.
    apply IH; [|assumption]. intros Hin. apply Hd. now right.
Qed.

Lemma occurs_prefix d0 d (a r : list C) :
  Forall (fun c => code c <> d0) a -> occurs (d0 :: d) (a ++ r) = occurs (d0 :: d) r.
Proof.
  intros Ha. induction Ha as [|c a Hc Ha IH]; [reflexivity|].
  cbn [app occurs startsWith]. apply N.eqb_neq in Hc. now rewrite Hc, IH.
Qed.

Lemma occurs_escapeHtml d0 d : ~ In AMP (d0 :: d) -> avoids d0 entities = true ->
  forall s : list C, occurs (d0 :: d) s = false -> occurs (d0 :: d) (escapeHtml s) = false.
Proof.
  intros Hd Hav. induction s as [|c s IH]; intros Hs; [exact Hs|].
  assert (Hs' : occurs (d0 :: d) s = false).
  { cbn in Hs. now apply orb_false_iff in Hs as [_ Hs]. }
  rewrite escapeHtml_cons. destruct (isSpecial (code c)) eqn:E.
  - destruct (escapeChar_special c E) as (t & Ht & ->).
    rewrite occurs_prefix by now apply (lit_avoids d0 entities). now apply IH.
  - rewrite (escapeChar_plain c E). cbn [app].
    change (occurs (d0 :: d) (c :: escapeHtml s))
      with (startsWith (d0 :: d) (c :: escapeHtml s) || occurs (d0 :: d) (escapeHtml s)).
    rewrite (IH Hs'), orb_false_r.
    destruct (startsWith (d0 :: d) (c :: escapeHtml s)) eqn:Est; [|reflexivity].
    assert (Eq : escapeHtml (c :: s) = c :: escapeHtml s)
      by now rewrite escapeHtml_cons, (escapeChar_plain c E).
    rewrite <- Eq in Est. apply (startsWith_escapeHtml _ Hd) in Est.
    apply occurs_startsWith in Hs. congruence.
Qed.

(** X12.  A text without asterisk, without backtick and without a colon
    followed by two slashes gets no inline markup: the inline formatter
    only escapes it. *)
Theorem plain_text_is_escaped (str : list C) :
  Forall (fun c => code c <> STAR) str ->
  Forall (fun c => code c <> BACKTICK) str ->
  occurs (codes "://") str = false ->
  applyInlineFormatting str = escapeHtml str.
Proof.
  intros Hstar Htick Hurl. unfold applyInlineFormatting.
  rewrite boldPass_absent by now apply escapeHtml_absent.
  rewrite italicPass_absent by now apply escapeHtml_absent.
  rewrite codePass_absent by now apply escapeHtml_absent.
  apply linkPass_absent. apply occurs_escapeHtml; try assumption; [|reflexivity].
  cbn. intros [E|[E|[E|[]]]]; discriminate.
Qed.

End PlainText.

Section PlainParagraph.

Context {C : Type} `{CodeUnit C}.

(** X13.  A one-line text that starts with an ordinary character, has no
    space at its end and holds no asterisk, no backtick and no colon
    followed by two slashes renders as one paragraph around the escaped
    text: every character of the message is shown, the three special ones
    as their entities. *)
Theorem plain_line_paragraph (c : C) (r : list C) :
  startsText (code c) = true ->
  Forall (fun x => code x <> STAR /\ code x <> BACKTICK /\ code x <> NEWLINE) (c :: r) ->
  occurs (codes "://") (c :: r) = false ->
  trimEnd (c :: r) = c :: r ->
  formatMessageText (c :: r) = lit "<p>" ++ escapeHtml (c :: r) ++ lit "</p>".
Proof.
  intros Hstart Hchars Hurl Htrim.
  apply negb_true_iff in Hstart.
  apply orb_false_iff in Hstart as [Hstart Hdigit].
  apply orb_false_iff in Hstart as [Hstart Hbullet].
  apply orb_false_iff in Hstart as [Hstart Htick].
  apply orb_false_iff in Hstart as [Hspace Hhash].
  assert (Hstar : Forall (fun x => code x <> STAR) (c :: r))
    by (eapply Forall_impl; [|exact Hchars]; cbn; tauto).
  assert (Hbt : Forall (fun x => code x <> BACKTICK) (c :: r))
    by (eapply Forall_impl; [|exact Hchars]; cbn; tauto).
  assert (Hnl : Forall (fun x => code x <> NEWLINE) (c :: r))
    by (eapply Forall_impl; [|exact Hchars]; cbn; tauto).
  assert (Hblank : trim (c :: r) <> []).
  { rewrite <- Htrim. apply trim_trimEnd_not_blank. rewrite Htrim. discriminate. }
  apply formatMessageText_block; [|discriminate].
  unfold blockPass. rewrite (split_one_line (c :: r) Hnl).
  cbn [scan fold_left]. unfold step. rewrite Htrim.
  rewrite (fence_other c r Htick). cbn [inCodeBlock initial].
  destruct (trim (c :: r)) as [|x t]; [contradiction|].
  rewrite (headingMatch_other c r Hhash), (orderedMatch_other c r Hdigit).
  cbn [bulletMatch]. rewrite Hbullet.
  unfold applyInlineFormatting.
  rewrite boldPass_absent by now apply escapeHtml_absent.
  rewrite italicPass_absent by now apply escapeHtml_absent.
  rewrite codePass_absent by now apply escapeHtml_absent.
  rewrite linkPass_absent; [reflexivity|].
  apply occurs_escapeHtml; try assumption; [|reflexivity].
  cbn. intros [E|[E|[E|[]]]]; discriminate.
Qed.

Lemma escapeHtml_url_chars (u : list C) :
  Forall (fun x => isSpace (code x) = false) u ->
  Forall (fun x => negb (isSpace (code x) || (code x =? LT)%N) = true) (escapeHtml u).
Proof.
  intros Hu. induction Hu as [|x u Hx Hu IH]; [constructor|].
  rewrite escapeHtml_cons. apply Forall_app. split; [|assumption].
  destruct (isSpecial (code x)) eqn:E.
  - destruct (escapeChar_special x E) as (t & Ht & ->).
    cbn in Ht. destruct Ht as [<-|[<-|[<-|[]]]];
      cbn; repeat constructor; now rewrite code_gen.
  - rewrite (escapeChar_plain x E). repeat constructor.
    rewrite Hx. cbn. unfold isSpecial in E.
    apply orb_false_iff in E as [E _]. apply orb_false_iff in E as [_ E].
    now rewrite E.
Qed.

End PlainParagraph.

Lemma matchUrl_whole (scheme : string) (e : list N) :
  scheme = "http://" \/ scheme = "https://" ->
  e <> [] ->
  Forall (fun x => negb (isSpace x || (x =? LT)%N) = true) e ->
  matchUrl (js scheme ++ e) = Some (js scheme ++ e, length (js scheme ++ e)).
Proof.
  intros Hscheme Hne He.
  pose proof (span_prefix (C := N) (fun n => negb (isSpace n || (n =? LT)%N)) e [] He I)
    as Hspan.
  rewrite app_nil_r in Hspan.
  destruct e as [|x e]; [contradiction|].
  destruct Hscheme as [-> | ->]; unfold matchUrl, afterScheme;
    cbn [js lit codes list_ascii_of_string map app startsWith skipn code gen plainUnit
         N_of_ascii N_of_digits Nat.add];
    cbn [N.eqb Pos.eqb andb N.add N.mul Pos.add Pos.mul Pos.succ];
    rewrite Hspan; cbn [fst length Nat.add firstn]; now rewrite firstn_all.
Qed.

(** X14.  A text that is one URL, the scheme http or https followed by
    characters that are no space, asterisk or backtick, becomes one
    hyperlink: the value of href and the text of the link are both the
    escaped URL.  Only the ampersand, the less-than and the greater-than
    sign are replaced; a double quote of the URL stands in the value of
    href as it is. *)
Theorem bare_url_is_linked (scheme : string) (u : list N) :
  scheme = "http://" \/ scheme = "https://" ->
  u <> [] ->
  Forall (fun x => isSpace x = false /\ x <> STAR /\ x <> BACKTICK) u ->
  applyInlineFormatting (js scheme ++ u)
  = anchorOpen (js scheme ++ escapeHtml u) ++ (js scheme ++ escapeHtml u) ++ js "</a>".
Proof.
  intros Hscheme Hne Hu.
  assert (Hsp : Forall (fun x : N => isSpace (code x) = false) u)
    by (eapply Forall_impl; [|exact Hu]; cbn; tauto).
  assert (Hstar : Forall (fun x : N => code x <> STAR) u)
    by (eapply Forall_impl; [|exact Hu]; cbn; tauto).
  assert (Hbt : Forall (fun x : N => code x <> BACKTICK) u)
    by (eapply Forall_impl; [|exact Hu]; cbn; tauto).
  assert (Hesc : escapeHtml (js scheme ++ u) = js scheme ++ escapeHtml u).
  { rewrite escapeHtml_app. f_equal.
    destruct Hscheme as [-> | ->]; now apply escapeHtml_lit_plain. }
  assert (Hs1 : Forall (fun x : N => code x <> STAR) (js scheme ++ escapeHtml u)).
  { apply Forall_app. split; [|now apply escapeHtml_absent].
    destruct Hscheme as [-> | ->]; repeat constructor; discriminate. }
  assert (Hs2 : Forall (fun x : N => code x <> BACKTICK) (js scheme ++ escapeHtml u)).
  { apply Forall_app. split; [|now apply escapeHtml_absent].
    destruct Hscheme as [-> | ->]; repeat constructor; discriminate. }
  assert (Hene : escapeHtml u <> []).
  { pose proof (escapeHtml_length u) as Hlen. destruct u; [contradiction|].
    destruct (escapeHtml (n :: u)); [cbn in Hlen; lia|discriminate]. }
  unfold applyInlineFormatting. rewrite Hesc.
  rewrite (boldPass_absent _ Hs1), (italicPass_absent _ Hs1), (codePass_absent _ Hs2).
  pose proof (matchUrl_whole scheme (escapeHtml u) Hscheme Hene
                (escapeHtml_url_chars u Hsp)) as Hm.
  unfold linkPass.
  destruct (js scheme ++ escapeHtml u) as [|x e] eqn:E.
  { destruct Hscheme as [-> | ->]; discriminate. }
  cbn [length] in Hm. rewrite (replaceAll_match matchUrl _ x e _ _ Hm).
  change (S (length e)) with (length (x :: e)). rewrite skipn_all.
  cbn [replaceAll replaceFrom]. now rewrite <- !app_assoc, app_nil_r.
Qed.

(** * Properties of the chat application *)

Lemma strEq_eq : forall a b, strEq a b = true <-> a = b.
Proof.
  induction a as [|x a IH]; intros [|y b]; cbn; split; try discriminate; try reflexivity.
  - intros Hab. apply andb_true_iff in Hab as [Hx Hab].
    apply N.eqb_eq in Hx. apply IH in Hab. now subst.
  - intros Hab. injection Hab as -> ->. rewrite N.eqb_refl. now apply IH.
Qed.

Section ThemeFacts.

(** X15.  After [setTheme] the attribute of the root, the attribute of the
    body and the stored item all hold the theme set, and the icon is the
    sun exactly for the theme dark.  [toggleTheme] always ends in dark or
    light: it sets light from dark and dark from anything else, a missing
    attribute included, so toggling three times is toggling once, and
    toggling twice gives back a theme that was dark or light. *)
Theorem theme_toggle (t : list N) (th : theme) :
  (rootTheme (setTheme t th) = Some t
   /\ bodyTheme (setTheme t th) = Some t
   /\ storedTheme (setTheme t th) = Some t
   /\ (themeIcon (setTheme t th) = js "fas fa-sun" <-> t = js "dark"))
  /\ (rootTheme (toggleTheme th) = Some (js "light") <-> rootTheme th = Some (js "dark"))
  /\ (rootTheme (toggleTheme th) = Some (js "dark") <-> rootTheme th <> Some (js "dark"))
  /\ toggleTheme (toggleTheme (toggleTheme th)) = toggleTheme th
  /\ (rootTheme th = Some (js "dark") \/ rootTheme th = Some (js "light") ->
      rootTheme (toggleTheme (toggleTheme th)) = rootTheme th).
Proof.
  assert (Hdark : forall x, strEq x (js "dark") = true <-> x = js "dark")
    by (intros x; apply strEq_eq).
  split; [|split; [|split; [|split]]].
  - repeat split; try reflexivity.
    + cbn [setTheme themeIcon]. destruct (strEq t (js "dark")) eqn:E.
      * intros _. now apply Hdark.
      * discriminate.
    + intros ->. reflexivity.
  - unfold toggleTheme. destruct (rootTheme th) as [x|]; cbn [setTheme rootTheme].
    + destruct (strEq x (js "dark")) eqn:E.
      * apply Hdark in E. subst. tauto.
      * split; [discriminate|]. intros Hx. injection Hx as ->. discriminate.
    + split; discriminate.
  - unfold toggleTheme. destruct (rootTheme th) as [x|]; cbn [setTheme rootTheme].
    + destruct (strEq x (js "dark")) eqn:E.
      * apply Hdark in E. subst. split; [discriminate|]. intros Hx. now contradiction Hx.
      * split; [|reflexivity]. intros _ Hx. injection Hx as ->. discriminate.
    + split; [discriminate|reflexivity].
  - unfold toggleTheme. destruct (rootTheme th) as [x|]; cbn [setTheme rootTheme];
      [destruct (strEq x (js "dark"))|]; reflexivity.
  - intros [E|E]; unfold toggleTheme; rewrite E; reflexivity.
Qed.

(** X16.  The theme survives a reload: whatever the page looks like when
    it is loaded again, [initTheme] on it gives the page that the last
    [setTheme] left, for every theme that is not the empty string, the
    two themes of [toggleTheme] among them.  With no stored item, or an
    empty one, the theme is light. *)
Theorem theme_persists (t : list N) (th reloaded : theme) :
  (t <> [] -> storedTheme reloaded = storedTheme (setTheme t th) ->
   initTheme reloaded = setTheme t th)
  /\ (storedTheme reloaded = storedTheme (toggleTheme th) ->
      initTheme reloaded = toggleTheme th)
  /\ (storedTheme reloaded = None \/ storedTheme reloaded = Some [] ->
      initTheme reloaded = setTheme (js "light") reloaded
      /\ rootTheme (initTheme reloaded) = Some (js "light")).
Proof.
  split; [|split].
  - intros Ht Hs. unfold initTheme. rewrite Hs. cbn [setTheme storedTheme].
    destruct t; [contradiction|reflexivity].
  - intros Hs. unfold initTheme. rewrite Hs. unfold toggleTheme.
    destruct (rootTheme th) as [x|]; [destruct (strEq x (js "dark"))|]; reflexivity.
  - intros [E|E]; unfold initTheme; rewrite E; split; reflexivity.
Qed.

End ThemeFacts.

Section ChatAppFacts.

Context {Chat : Type} `{ChatDom Chat}.

Implicit Types (a : @chatApp Chat) (o : outcome).

Lemma trim_length_zero (v : list N) : (0 <? length (trim v))%nat = false <-> trim v = [].
Proof.
  destruct (trim v); cbn; split; try reflexivity; discriminate.
Qed.

(** X17.  [sendMessage] posts a message exactly when the send button, as
    [toggleSendButton] sets it for the same page, is enabled: the trimmed
    input is not empty and no answer is awaited.  Otherwise it changes
    nothing: an input of spaces only is never sent, and nothing is sent
    while an answer is awaited. *)
Theorem send_guard (scrollHeight : nat) (now : list N) a :
  (snd (sendMessageStart scrollHeight now a) = None
   <-> sendDisabled (messageInput (toggleSendButton a)) = true)
  /\ (snd (sendMessageStart scrollHeight now a) = None ->
      fst (sendMessageStart scrollHeight now a) = a)
  /\ (Forall (fun c => isSpace c = true) (inputValue (messageInput a)) ->
      sendMessageStart scrollHeight now a = (a, None))
  /\ (isTyping a = true -> sendMessageStart scrollHeight now a = (a, None)).
Proof.
  unfold sendMessageStart, toggleSendButton. cbn [withInput messageInput sendDisabled].
  split; [|split; [|split]].
  - destruct (trim (inputValue (messageInput a))) as [|c r]; cbn.
    + tauto.
    + destruct (isTyping a); cbn; split; try reflexivity; discriminate.
  - destruct (trim (inputValue (messageInput a))) as [|c r]; [reflexivity|].
    destruct (isTyping a); [reflexivity|discriminate].
  - intros Hs.
    assert (Hs' : Forall (fun c : N => isSpace (code c) = true)
                    (inputValue (messageInput a))) by exact Hs.
    unfold trim. now rewrite (trimEnd_spaces _ Hs').
  - intros ->. now destruct (trim (inputValue (messageInput a))).
Qed.

(** X18.  When [sendMessage] posts, the message posted is the trimmed
    input, and the bubble appended for the user shows the markup that the
    renderer returns for that same text; the input is emptied, the
    counter shows 0/1000, the send button is disabled, and the page
    awaits the answer. *)
Theorem send_effects (scrollHeight : nat) (now : list N) a (posted : list N) :
  snd (sendMessageStart scrollHeight now a) = Some posted ->
  let a' := fst (sendMessageStart scrollHeight now a) in
  posted = trim (inputValue (messageInput a))
  /\ posted <> []
  /\ chatMessages a' = appendChild (messageElement posted (js "user") now) (chatMessages a)
  /\ messageText (messageElement posted (js "user") now) = formatMessageText posted
  /\ Markup (messageText (messageElement posted (js "user") now))
  /\ inputValue (messageInput a') = []
  /\ charCountText (messageInput a') = js "0/1000"
  /\ sendDisabled (messageInput a') = true
  /\ isTyping a' = true
  /\ statusText (status a') = js "AI is typing..."
  /\ lastBotMessage a' = lastBotMessage a.
Proof.
  unfold sendMessageStart.
  destruct (trim (inputValue (messageInput a))) as [|c r] eqn:E; [discriminate|].
  destruct (isTyping a) eqn:Ht; [discriminate|].
  cbn [snd fst]. intros Hp. injection Hp as <-.
  repeat split; try reflexivity; try discriminate.
  apply formatMessageText_Markup.
Qed.

Lemma sendMessageFinish_isTyping o (now : list N) a :
  isTyping (sendMessageFinish o now a) = false.
Proof. now destruct o as [| | |[|] response error]. Qed.

Lemma sendMessageFinish_typingShown o (now : list N) a :
  typingShown (sendMessageFinish o now a) = false.
Proof. now destruct o as [| | |[|] response error]. Qed.

Lemma sendMessageFinish_messageInput o (now : list N) a :
  messageInput (sendMessageFinish o now a) = messageInput a.
Proof. now destruct o as [| | |[|] response error]. Qed.

(** X19.  When the request settles the page stops waiting, whatever the
    outcome: the typing flag and the typing indicator are off.  The input
    and the send button are left as they are. *)
Theorem settle_stops_typing o (now : list N) a :
  isTyping (sendMessageFinish o now a) = false
  /\ typingShown (sendMessageFinish o now a) = false
  /\ messageInput (sendMessageFinish o now a) = messageInput a.
Proof.
  destruct o as [| | |[|] response error]; repeat split.
Qed.

(** X20.  Every failure looks the same on the page: a network error, a
    status that is not ok, a body that is no JSON and an answer without
    success all leave the page of a network error.  No bubble is added,
    the last answer is kept, the status reads Connection Error, and the
    modal shows one fixed sentence: the status code and the error text of
    the server are not shown. *)
Theorem failures_look_alike o (now : list N) a :
  succeeded o = false ->
  sendMessageFinish o now a = sendMessageFinish NetworkError now a
  /\ chatMessages (sendMessageFinish o now a) = chatMessages a
  /\ lastBotMessage (sendMessageFinish o now a) = lastBotMessage a
  /\ statusText (status (sendMessageFinish o now a)) = js "Connection Error"
  /\ errorModal (sendMessageFinish o now a)
     = {| errorMessage := js "Failed to get response from AI. Please try again.";
          errorShown := true |}.
Proof.
  intros Hf. destruct o as [| | |[|] response error]; try discriminate;
    repeat split.
Qed.

(** X21.  An answer with success set appends one bubble for the bot that
    shows the markup of the renderer for the answer, keeps the answer
    itself, as it came, for [copyLastResponse], and sets the status to
    Ready.  [copyLastResponse] then writes exactly that text, not the
    markup, to the clipboard, unless the answer is the empty string: an
    empty answer gets its bubble but cannot be copied. *)
Theorem answer_shown_and_kept (response error now : list N) (written : bool) a :
  let a' := sendMessageFinish (Data true response error) now a in
  chatMessages a' = appendChild (messageElement response (js "bot") now) (chatMessages a)
  /\ messageText (messageElement response (js "bot") now) = formatMessageText response
  /\ Markup (messageText (messageElement response (js "bot") now))
  /\ lastBotMessage a' = response
  /\ statusText (status a') = js "Ready"
  /\ (response <> [] -> fst (copyLastResponse written a') = Some response)
  /\ (response = [] ->
      fst (copyLastResponse written a') = None
      /\ toastText (snd (copyLastResponse written a')) = js "No response to copy"
      /\ messageText (messageElement response (js "bot") now) = js "<br>").
Proof.
  cbn zeta. repeat split; try reflexivity.
  - apply formatMessageText_Markup.
  - intros Hne. unfold copyLastResponse. cbn. now destruct response.
  - now subst.
  - now subst.
  - now subst.
Qed.


Lemma handle_awaiting e w w' : awaiting w -> handle e w = Some w' -> awaiting w'.
Proof.
  destruct w as [a pending]. unfold awaiting. cbn [fst snd].
  intros (Hle & Hiff & Hshow & Hdis) He.
  destruct e as [v h|h now|o now|confirmed| |]; cbn [handle] in He.
  - injection He as <-. cbn [fst snd]. unfold onInput, toggleSendButton. cbn.
    repeat split; try tauto. intros ->. apply orb_true_r.
  - unfold sendMessageStart in He.
    destruct (trim (inputValue (messageInput a))) as [|c r];
      [injection He as <-; cbn; tauto|].
    destruct (isTyping a) eqn:Ht; [injection He as <-; cbn; rewrite Ht; tauto|].
    injection He as <-. cbn.
    assert (pending = 0) by (destruct pending as [|[|n]]; [reflexivity| |lia];
      destruct Hiff as [_ Hiff]; now specialize (Hiff eq_refl)).
    subst. repeat split; auto.
  - destruct pending as [|n]; [discriminate|]. injection He as <-.
    assert (n = 0) by lia. subst. cbn [fst snd].
    rewrite sendMessageFinish_isTyping, sendMessageFinish_typingShown.
    repeat split; try lia; try discriminate; try reflexivity.
  - injection He as <-. destruct confirmed; cbn; tauto.
  - injection He as <-. cbn. tauto.
  - injection He as <-. cbn. tauto.
Qed.

Lemma run_awaiting : forall es w w', awaiting w -> run es w = Some w' -> awaiting w'.
Proof.
  induction es as [|e es IH]; intros w w' Hw Hrun; cbn in Hrun.
  - now injection Hrun as <-.
  - destruct (handle e w) as [w1|] eqn:He; [|discriminate].
    apply (IH w1 w'); [|assumption]. now apply (handle_awaiting e w).
Qed.

(** X23.  Whatever the user does and whenever the answers come, the page
    never awaits two answers: from a page that awaits none, after any
    events, at most one request has not settled, the typing flag and the
    typing indicator are on exactly while one has not, and the send
    button is disabled as long as one has not. *)
Theorem one_request_in_flight (es : list event) a (w : @chatApp Chat * nat) :
  isTyping a = false -> typingShown a = false ->
  run es (a, 0) = Some w ->
  snd w <= 1
  /\ (isTyping (fst w) = true <-> snd w = 1)
  /\ typingShown (fst w) = isTyping (fst w)
  /\ (snd w = 1 -> sendDisabled (messageInput (fst w)) = true).
Proof.
  intros Ht Hs Hrun.
  assert (Hinit : awaiting (a, 0)).
  { unfold awaiting. cbn. rewrite Ht, Hs. repeat split; try lia; discriminate. }
  destruct (run_awaiting es (a, 0) w Hinit Hrun) as (Hle & Hiff & Hshow & Hdis).
  repeat split; try assumption; try apply Hiff. intros Hp. apply Hdis. now apply Hiff.
Qed.

(** X24.  The send button is not set again when the answer comes: text
    typed while the answer is awaited leaves the button disabled after
    the answer, until the next input event, though [sendMessage] itself
    (the Enter key) would post that text. *)
Theorem button_stays_disabled (v : list N) (h h' : nat) (now now' : list N) o a :
  isTyping a = true ->
  trim v <> [] ->
  let a' := sendMessageFinish o now (onInput v h a) in
  sendDisabled (messageInput a') = true
  /\ snd (sendMessageStart h' now' a') = Some (trim v)
  /\ sendDisabled (messageInput (onInput v h' a')) = false.
Proof.
  intros Ht Hv a'.
  assert (Hin : messageInput a' = messageInput (onInput v h a))
    by apply sendMessageFinish_messageInput.
  assert (Hty : isTyping a' = false) by apply sendMessageFinish_isTyping.
  repeat split.
  - rewrite Hin. unfold onInput, toggleSendButton. cbn. rewrite Ht. apply orb_true_r.
  - unfold sendMessageStart. rewrite Hin, Hty.
    change (inputValue (messageInput (onInput v h a))) with v.
    destruct (trim v); [contradiction|reflexivity].
  - unfold onInput, toggleSendButton.
    cbn [withInput messageInput sendDisabled inputValue setValue autoResizeTextarea
         updateCharCount isTyping].
    rewrite Hty. destruct (trim v); [contradiction|reflexivity].
Qed.

End ChatAppFacts.

(** * The properties at concrete inputs *)

Lemma escapeHtml_injective_witness : js "a<" ++ js "b" = js "a<b".
Proof. apply escapeHtml_injective. vm_compute. reflexivity. Defined.

Lemma escapeHtml_fixed_points_witness :
  escapeHtml (js "plain text") = js "plain text"
  /\ escapeHtml (escapeHtml (js "a&b")) <> escapeHtml (js "a&b").
Proof.
  split.
  - apply (escapeHtml_fixed_points (js "plain text")).
    repeat constructor.
  - intros Heq. apply (escapeHtml_fixed_points (js "a&b")) in Heq.
    inversion Heq as [|? ? _ Hrest]; subst. inversion Hrest as [|? ? Hamp _]; subst.
    vm_compute in Hamp. discriminate.
Defined.

Lemma plain_text_is_escaped_witness :
  applyInlineFormatting (js "1 < 2 & 3 > 2") = js "1 &lt; 2 &amp; 3 &gt; 2".
Proof.
  rewrite (plain_text_is_escaped (js "1 < 2 & 3 > 2")).
  - vm_compute. reflexivity.
  - repeat constructor; discriminate.
  - repeat constructor; discriminate.
  - vm_compute. reflexivity.
Defined.

Lemma plain_line_paragraph_witness :
  formatMessageText (js "Hello <world> & co")
  = js "<p>Hello &lt;world&gt; &amp; co</p>".
Proof.
  change (js "Hello <world> & co") with (72%N :: js "ello <world> & co") at 1.
  rewrite (plain_line_paragraph 72%N (js "ello <world> & co")).
  - vm_compute. reflexivity.
  - vm_compute. reflexivity.
  - repeat constructor; discriminate.
  - vm_compute. reflexivity.
  - vm_compute. reflexivity.
Defined.

Lemma rendering_composes_witness :
  blockPass (js ("# T" ++ nl ++ "- x")%string) = blockPass (js "# T") ++ blockPass (js "- x")
  /\ formatMessageText (js ("# T" ++ nl ++ "- x")%string)
     = formatMessageText (js "# T") ++ formatMessageText (js "- x").
Proof.
  destruct (rendering_composes (C := N)) as (_ & Hblock & Hformat). split.
  - apply (Hblock (js "# T") (js "- x") NEWLINE); vm_compute; reflexivity.
  - apply (Hformat (js "# T") (js "- x") NEWLINE);
      try (vm_compute; reflexivity); vm_compute; discriminate.
Defined.

Lemma trailing_space_witness :
  step initial (js "# T" ++ js "  ") = step initial (js "# T")
  /\ codeBuffer (step (setInCodeBlock true initial) (js "x" ++ js "  ")) = [js "x  "].
Proof.
  destruct (trailing_space (@initial N) (js "# T") (js "  ")) as [Hout _];
    [repeat constructor|].
  destruct (trailing_space (setInCodeBlock true (@initial N)) (js "x") (js "  "))
    as [_ Hin]; [repeat constructor|].
  split.
  - apply Hout. reflexivity.
  - destruct Hin as (_ & Hbuf & _); [reflexivity|reflexivity|]. exact Hbuf.
Defined.

Lemma indented_line_is_paragraph_witness :
  step initial (js "  - a") = emit (js "<p>  - a</p>") (flushList (@initial N)).
Proof.
  rewrite (indented_line_is_paragraph (@initial N) (js "  - a") 32%N (js " - a")).
  - vm_compute. reflexivity.
  - reflexivity.
  - vm_compute. reflexivity.
  - reflexivity.
Defined.

Lemma blank_text_breaks_witness :
  formatMessageText (js (" " ++ nl ++ "  " ++ nl)%string) = js "<br><br><br>".
Proof.
  destruct (blank_text_breaks (js (" " ++ nl ++ "  " ++ nl)%string)) as [Hbr _].
  - repeat constructor.
  - rewrite Hbr. vm_compute. reflexivity.
Defined.

Lemma bullet_rule_witness :
  step initial (js "-  a **b** ") = pushItem ul (js "a **b**") (@initial N).
Proof.
  destruct (bullet_rule (@initial N) (js "-  a **b** ") 45%N (js "  ") 97%N (js " **b**"))
    as [_ Hstep].
  - reflexivity.
  - reflexivity.
  - vm_compute; discriminate.
  - repeat constructor.
  - reflexivity.
  - vm_compute. reflexivity.
  - rewrite Hstep. vm_compute. reflexivity.
Defined.

Lemma ordered_rule_witness :
  step initial (js "12. a") = pushItem ol (js "a") (@initial N)
  /\ step initial (js "7. a") = pushItem ol (js "a") (@initial N).
Proof.
  split.
  - refine (proj2 (ordered_rule (@initial N) (js "12. a") 49%N (js "2") 46%N (js " ")
                     97%N [] _ _ _ _ _ _ _)).
    + reflexivity.
    + repeat constructor.
    + reflexivity.
    + vm_compute; discriminate.
    + repeat constructor.
    + reflexivity.
    + reflexivity.
  - refine (proj2 (ordered_rule (@initial N) (js "7. a") 55%N [] 46%N (js " ")
                     97%N [] _ _ _ _ _ _ _)).
    + reflexivity.
    + repeat constructor.
    + reflexivity.
    + vm_compute; discriminate.
    + repeat constructor.
    + reflexivity.
    + reflexivity.
Defined.

Lemma fenced_code_block_witness :
  formatMessageText (js ("```js" ++ nl ++ "a *b*" ++ nl ++ " <c> ")%string)
  = js ("<pre><code>a *b*" ++ nl ++ " &lt;c&gt; </code></pre>")%string
  /\ formatMessageText (js ("```js" ++ nl ++ "a *b*" ++ nl ++ " <c> " ++ nl ++ "```")%string)
     = js ("<pre><code>a *b*" ++ nl ++ " &lt;c&gt; </code></pre>")%string.
Proof.
  destruct (fenced_code_block (js "```js") (js ("a *b*" ++ nl ++ " <c> ")%string))
    as [Hopen Hclosed].
  - reflexivity.
  - repeat constructor; discriminate.
  - vm_compute. repeat constructor.
  - split.
    + etransitivity; [|etransitivity; [exact Hopen|]]; vm_compute; reflexivity.
    + etransitivity; [|etransitivity; [apply (Hclosed (js "```"))|]];
        try (vm_compute; reflexivity).
      repeat constructor; discriminate.
Defined.

Lemma bare_url_is_linked_witness :
  applyInlineFormatting (js ("http://x?a=1&b=" ++ dq ++ "2" ++ dq)%string)
  = js ("<a href=" ++ dq ++ "http://x?a=1&amp;b=" ++ dq ++ "2" ++ dq ++ dq
        ++ " target=" ++ dq ++ "_blank" ++ dq ++ ">http://x?a=1&amp;b="
        ++ dq ++ "2" ++ dq ++ "</a>")%string.
Proof.
  etransitivity;
    [|etransitivity;
      [apply (bare_url_is_linked "http://" (js ("x?a=1&b=" ++ dq ++ "2" ++ dq)%string))|]].
  - vm_compute. reflexivity.
  - now left.
  - vm_compute; discriminate.
  - repeat constructor; discriminate.
  - vm_compute. reflexivity.
Defined.

Lemma theme_toggle_witness :
  rootTheme (toggleTheme (toggleTheme (setTheme (js "light") (mkTheme None None None [] []))))
  = Some (js "light").
Proof.
  destruct (theme_toggle (js "light") (setTheme (js "light") (mkTheme None None None [] [])))
    as (_ & _ & _ & _ & Htwice).
  rewrite Htwice; [reflexivity|]. right. reflexivity.
Defined.

Lemma theme_persists_witness :
  initTheme (mkTheme None None (Some (js "dark")) [] [])
  = setTheme (js "dark") (mkTheme None None None [] [])
  /\ rootTheme (initTheme (mkTheme None None None [] [])) = Some (js "light").
Proof.
  split.
  - refine (proj1 (theme_persists (js "dark") (mkTheme None None None [] [])
                     (mkTheme None None (Some (js "dark")) [] [])) _ _).
    + vm_compute; discriminate.
    + reflexivity.
  - refine (proj2 (proj2 (proj2 (theme_persists [] (mkTheme None None None [] [])
                                   (mkTheme None None None [] []))) _)).
    now left.
Defined.

Lemma send_guard_witness :
  sendMessageStart (H := listChat) 40 (js "10:00") (pageWith (js "  ") false)
  = (pageWith (js "  ") false, None)
  /\ sendMessageStart (H := listChat) 40 (js "10:00") (pageWith (js "hi") true)
     = (pageWith (js "hi") true, None).
Proof.
  split.
  - refine (proj1 (proj2 (proj2 (send_guard (H := listChat) 40 (js "10:00")
                                   (pageWith (js "  ") false)))) _).
    repeat constructor.
  - refine (proj2 (proj2 (proj2 (send_guard (H := listChat) 40 (js "10:00")
                                   (pageWith (js "hi") true)))) _).
    reflexivity.
Defined.

Lemma send_effects_witness :
  chatMessages (fst (sendMessageStart (H := listChat) 40 (js "10:00")
                       (pageWith (js " *hi* ") false)))
  = [messageElement (js "*hi*") (js "user") (js "10:00")]
  /\ messageText (messageElement (js "*hi*") (js "user") (js "10:00")) = js "<p><em>hi</em></p>".
Proof.
  destruct (send_effects (H := listChat) 40 (js "10:00") (pageWith (js " *hi* ") false)
              (js "*hi*")) as (_ & _ & Hchat & Htext & _).
  - vm_compute. reflexivity.
  - split; [exact Hchat|]. rewrite Htext. vm_compute. reflexivity.
Defined.

Lemma failures_look_alike_witness :
  sendMessageFinish (H := listChat) (Data false [] (js "quota exceeded")) (js "10:00")
    (pageWith [] true)
  = sendMessageFinish (H := listChat) (HttpError 500) (js "10:00") (pageWith [] true).
Proof.
  destruct (failures_look_alike (H := listChat) (Data false [] (js "quota exceeded"))
              (js "10:00") (pageWith [] true) eq_refl) as [Hd _].
  destruct (failures_look_alike (H := listChat) (HttpError 500)
              (js "10:00") (pageWith [] true) eq_refl) as [Hh _].
  now rewrite Hd, Hh.
Defined.

Lemma answer_shown_and_kept_witness :
  fst (copyLastResponse true
         (sendMessageFinish (H := listChat) (Data true (js "**ok**") []) (js "10:00")
            (pageWith [] true)))
  = Some (js "**ok**").
Proof.
  destruct (answer_shown_and_kept (H := listChat) (js "**ok**") [] (js "10:00") true
              (pageWith [] true)) as (_ & _ & _ & _ & _ & Hcopy & _).
  apply Hcopy. vm_compute; discriminate.
Defined.

Lemma one_request_in_flight_witness :
  exists w,
    run (H := listChat)
      [Typed (js "a") 40; Send 40 (js "10:00"); Typed (js "b") 40; Send 40 (js "10:01");
       Settled (Data true (js "x") []) (js "10:02")]
      (pageWith [] false, 0) = Some w
    /\ snd w <= 1.
Proof.
  eexists. split; [vm_compute; reflexivity|].
  eapply (one_request_in_flight (H := listChat)
            [Typed (js "a") 40; Send 40 (js "10:00"); Typed (js "b") 40;
             Send 40 (js "10:01"); Settled (Data true (js "x") []) (js "10:02")]
            (pageWith [] false)).
  - reflexivity.
  - reflexivity.
  - vm_compute. reflexivity.
Defined.

Lemma button_stays_disabled_witness :
  sendDisabled (messageInput
    (sendMessageFinish (H := listChat) (Data true (js "x") []) (js "10:02")
       (onInput (js "next") 40 (pageWith [] true)))) = true.
Proof.
  refine (proj1 (button_stays_disabled (H := listChat) (js "next") 40 40 (js "10:02")
                   (js "10:03") (Data true (js "x") []) (pageWith [] true) _ _)).
  - reflexivity.
  - vm_compute. discriminate.
Defined.
